(** * The [a] command-line wrapper around [age]: key selection and retry

    A shallow embedding of the decision procedures of the Go package [cmd]
    (files [cmd/decrypt.go], [cmd/encrypt.go], [cmd/config_shared.go]) and the
    properties its description states about them.

    Conventions.
    - A Go [string] is a Rocq [string] (a sequence of bytes), an [int] or a
      [FileMode] an integer of [Z]; a [map[string]bool] is a [gmap].
    - A Go [error] is its message; [option error] is a possibly-nil error.
    - A function of the package that returns [(v, err)] returns a pair here,
      with the nil slice as [[]] and the nil pointer as [None].
    - Everything outside the process (environment, file system, network, the
      [age] binary) is an abstract [World], reached only through the
      operations of the class [Platform].  An operation whose value the
      package never reads when it fails returns a sum.
    - The [*logrus.Logger] is the list of entries handed to it so far; a
      command runs in a [State], the world and that list.
    - A loop [for i, x := range l] is a recursion on [l], or a [fold_left]
      of the loop body when it has no early exit.

    The file has three parts: the package, with a simulated world to run it
    in; the vocabulary in which the properties are stated; the properties. *)

From Stdlib Require Import ZArith Lia Ascii.
From stdpp Require Import base option list strings gmap.

Local Open Scope Z_scope.

(** ** Go's [strings] and [fmt], as far as the package uses them *)

Module GoStrings.

(** [strings.HasPrefix]: [len(s) >= len(prefix) && s[:len(prefix)] == prefix]. *)
Definition HasPrefix (s prefix : string) : bool :=
  Nat.leb (String.length prefix) (String.length s)
  && String.eqb (String.substring 0 (String.length prefix) s) prefix.

(** [strings.HasSuffix]:
    [len(s) >= len(suffix) && s[len(s)-len(suffix):] == suffix]. *)
Definition HasSuffix (s suffix : string) : bool :=
  Nat.leb (String.length suffix) (String.length s)
  && String.eqb
       (String.substring (String.length s - String.length suffix)
          (String.length suffix) s)
       suffix.

(** [strings.Split(s, sep)] for a separator [sep] of one byte: the pieces of
    [s] between the occurrences of the byte; always at least one piece. *)
Fixpoint Split (s : string) (sep : ascii) : list string :=
  match s with
  | EmptyString => [EmptyString]
  | String c s' =>
      if Ascii.eqb c sep then EmptyString :: Split s' sep
      else match Split s' sep with
           | piece :: pieces => String c piece :: pieces
           | [] => [String c EmptyString]
           end
  end.

(** [strings.Join(elems, sep)]. *)
Fixpoint Join (elems : list string) (sep : string) : string :=
  match elems with
  | [] => ""
  | [e] => e
  | e :: rest => e +:+ sep +:+ Join rest sep
  end.

(** The verb [%v] of [fmt] on a [[]string]: the elements between brackets,
    separated by one space. *)
Definition fmt_v (l : list string) : string := "[" +:+ Join l " " +:+ "]".

Definition digit (n : N) : ascii := Ascii.ascii_of_N (48 + n).

Fixpoint digits_in (base : N) (fuel : nat) (n : N) (acc : string) : string :=
  match fuel with
  | O => acc
  | S fuel' =>
      let acc' := String (digit (n mod base)) acc in
      if (n / base =? 0)%N then acc' else digits_in base fuel' (n / base) acc'
  end.

Definition fmt_int (base : N) (n : Z) : string :=
  let m := Z.to_N (Z.abs n) in
  let ds := digits_in base (S (N.to_nat (N.log2 m))) m "" in
  if n <? 0 then "-" +:+ ds else ds.

(** The verbs [%o] and [%d] of [fmt] on an integer. *)
Definition fmt_o (n : Z) : string := fmt_int 8 n.
Definition fmt_d (n : Z) : string := fmt_int 10 n.

End GoStrings.
Import GoStrings.

Definition error : Type := string.

(** A Go [map[string]bool] indexed at a key: the zero value [false] when the
    key is absent. *)
Definition map_index (m : gmap string bool) (k : string) : bool :=
  default false (m !! k).

(** ** Data of the package *)

(** [Config], the YAML configuration ([cmd/config_shared.go]). *)
Record Config := mkConfig {
  SSHKeyPath : string;
  GitHubUser : string;
  DefaultRecipients : list string;
  CacheTTLMinutes : Z;
  LogFilePath : string
}.

Definition zeroConfig : Config := mkConfig "" "" [] 0 "".

Definition set_LogFilePath (cfg : Config) (p : string) : Config :=
  mkConfig (SSHKeyPath cfg) (GitHubUser cfg) (DefaultRecipients cfg)
    (CacheTTLMinutes cfg) p.

(** What the package reads from an [os.DirEntry] and an [os.FileInfo]. *)
Record DirEntry := mkDirEntry { Name : string; IsDir : bool }.
Record FileInfo := mkFileInfo { Mode : Z }.

(** [FileMode.Perm]: the permission bits, [m & 0o777]. *)
Definition Perm (m : Z) : Z := Z.land m 511.

(** What the package reads from an [*http.Response]: the status code, the
    result of [io.ReadAll] on the body and the result of closing it. *)
Record Response := mkResponse {
  StatusCode : Z;
  Body_ReadAll : string * option error;
  Body_Close : option error
}.

Inductive Level := InfoLevel | WarnLevel | ErrorLevel.

(** An entry handed to the logger: level, message and fields ([WithFields],
    and [WithError], which sets the field ["error"]). *)
Record LogEntry := mkLogEntry {
  log_level : Level;
  log_fields : list (string * string);
  log_msg : string
}.

(** ** The outside world *)

Class Platform (World : Type) := {
  os_Getenv : string -> World -> string;
  os_UserConfigDir : World -> string + error;
  os_Stat : string -> World -> FileInfo + error;
  os_ReadDir : string -> World -> list DirEntry + error;
  os_ReadFile : string -> World -> string + error;
  os_WriteFile : string -> string -> Z -> World -> option error * World;
  os_MkdirAll : string -> Z -> World -> option error * World;
  filepath_Join : list string -> string;
  filepath_Abs : string -> World -> string + error;
  (** [exec.Command(bin, args...).Run()] *)
  exec_Run : string -> list string -> World -> option error * World;
  http_Get : string -> World -> (Response + error) * World;
  yaml_Marshal : Config -> string + error;
  yaml_Unmarshal : string -> Config -> Config * option error;
  strings_TrimSpace : string -> string
}.

(** ** [cmd/encrypt.go]: [buildAgeArgs] *)

Definition encryptFlags : gmap string bool :=
  {[ "-o" := true; "-r" := true ]}.

(** The validation loop of [buildAgeArgs], [for i, arg := range ageArgs], from
    index [i] on; [n] is [len(ageArgs)]. *)
Fixpoint buildAgeArgs_check (n : Z) (i : Z) (args : list string) : option error :=
  match args with
  | [] => None
  | arg :: rest =>
      if (i mod 2 =? 0) && (i <? n - 2) then
        if negb (map_index encryptFlags arg)
        then Some ("unexpected flag in age arguments: " +:+ arg)
        else buildAgeArgs_check n (i + 1) rest
      else if String.eqb arg ""
        then Some "invalid argument for encryption: empty string"
        else buildAgeArgs_check n (i + 1) rest
  end.

Definition buildAgeArgs (output input : string) (recipients : list string)
  : list string * option error :=
  let ageArgs := ["-o"; output] in
  let ageArgs := fold_left (fun acc r => acc ++ ["-r"; r]) recipients ageArgs in
  let ageArgs := ageArgs ++ [input] in
  match buildAgeArgs_check (Z.of_nat (length ageArgs)) 0 ageArgs with
  | Some err => ([], Some err)
  | None =>
      if negb (HasSuffix output ".txt") && negb (HasSuffix output ".out")
      then ([], Some ("invalid output file for encryption: " +:+ output))
      else (ageArgs, None)
  end.

(** ** [cmd/decrypt.go]: [tryDecrypt], [selectSSHKey] *)

Definition decryptFlags : gmap string bool :=
  {[ "-d" := true; "-i" := true; "-o" := true ]}.

(** The validation loop of [tryDecrypt], from index [i] on. *)
Fixpoint tryDecrypt_check (i : Z) (args : list string) : option error :=
  match args with
  | [] => None
  | arg :: rest =>
      if (i =? 0) || (i =? 2) || (i =? 4) then
        if negb (map_index decryptFlags arg) && negb (i =? 0)
        then Some ("unexpected flag in age arguments: " +:+ arg)
        else tryDecrypt_check (i + 1) rest
      else if String.eqb arg ""
        then Some "invalid argument for decryption: empty string"
        else tryDecrypt_check (i + 1) rest
  end.

Section Decrypt.
Context {World : Type} `{Platform World}.

Definition tryDecrypt (keyPath output input : string) (w : World)
  : option error * World :=
  let ageBin := "age" in
  if negb (String.eqb ageBin "age")
  then (Some ("invalid binary for decryption: " +:+ ageBin), w)
  else
    let ageArgs := ["-d"; "-i"; keyPath; "-o"; output; input] in
    match tryDecrypt_check 0 ageArgs with
    | Some err => (Some err, w)
    | None =>
        if negb (HasSuffix keyPath "id_rsa")
           && negb (HasSuffix keyPath "id_ed25519")
        then (Some ("invalid key file for decryption: " +:+ keyPath), w)
        else if negb (HasSuffix output ".txt")
                && negb (HasSuffix output ".out")
        then (Some ("invalid output file for decryption: " +:+ output), w)
        else exec_Run ageBin ageArgs w
    end.

Definition selectSSHKey (sshKeyFlag : string) (cfg : Config) : string :=
  if negb (String.eqb sshKeyFlag "") then sshKeyFlag else SSHKeyPath cfg.

End Decrypt.

(** ** The logger and the state of a command *)

(** The state a command runs in: the outside world and the entries handed to
    the logger so far.  [tryDecrypt] receives no logger, so it acts on the
    world alone. *)
Record State (World : Type) := mkState {
  world : World;
  logged : list LogEntry
}.
Arguments mkState {World} _ _.
Arguments world {World} _.
Arguments logged {World} _.

Section Logger.
Context {World : Type}.

Definition log_entry (e : LogEntry) (st : State World) : State World :=
  mkState (world st) (logged st ++ [e]).

(** [log.WithFields(fields).Info(msg)], [log.Info(msg)] with no field. *)
Definition log_Info (fields : list (string * string)) (msg : string)
  : State World -> State World :=
  log_entry (mkLogEntry InfoLevel fields msg).

(** [log.Warnf], and [log.WithError(err).Warn] with the field ["error"]. *)
Definition log_Warn (fields : list (string * string)) (msg : string)
  : State World -> State World :=
  log_entry (mkLogEntry WarnLevel fields msg).

Definition WithError (err : error) : list (string * string) :=
  [("error", err)].

(** Running an operation of the world inside a command. *)
Definition in_world {A} (op : World -> A * World) (st : State World)
  : A * State World :=
  let (a, w) := op (world st) in (a, mkState w (logged st)).
End Logger.

(** ** [cmd/config_shared.go] *)

Section ConfigShared.
Context {World : Type} `{Platform World}.

Definition LoadConfig (cfgFile : string) (w : World)
  : (option Config * option error) * World :=
  match os_UserConfigDir w with
  | inr err => ((None, Some err), w)
  | inl configDir =>
  let expectedDir := filepath_Join [configDir; "a"] in
  match filepath_Abs cfgFile w with
  | inr err => ((None, Some err), w)
  | inl absCfgFile =>
  if negb (HasPrefix absCfgFile expectedDir)
  then ((None, Some ("config file path " +:+ absCfgFile
                     +:+ " is not within expected config directory "
                     +:+ expectedDir)), w)
  else
  match os_Stat cfgFile w with
  | inr err => ((None, Some ("config file does not exist: " +:+ err)), w)
  | inl _ =>
  match os_Stat cfgFile w with
  | inr err => ((None, Some ("config file does not exist: " +:+ err)), w)
  | inl info =>
  if negb (Perm (Mode info) =? 384)
  then ((None, Some ("config file must have 0600 permissions, got "
                     +:+ fmt_o (Perm (Mode info)))), w)
  else
  match os_ReadFile cfgFile w with
  | inr err => ((None, Some err), w)
  | inl data =>
  let (cfg, uerr) := yaml_Unmarshal data zeroConfig in
  match uerr with
  | Some err => ((None, Some err), w)
  | None =>
  if String.eqb (LogFilePath cfg) "" then
    let stateDir := filepath_Join [os_Getenv "HOME" w; ".state"; "a"] in
    let (merr, w') := os_MkdirAll stateDir 448 w in
    match merr with
    | Some err => ((None, Some err), w')
    | None =>
        ((Some (set_LogFilePath cfg (filepath_Join [stateDir; "cli.log"])),
          None), w')
    end
  else ((Some cfg, None), w)
  end end end end end end.

Definition SaveConfig (cfgFile : string) (cfg : Config) (w : World)
  : option error * World :=
  match yaml_Marshal cfg with
  | inr err => (Some err, w)
  | inl data => os_WriteFile cfgFile data 384 w
  end.

(** The body of the loop of [ScanSSHPrivateKeys] on one directory entry. *)
Definition scan_entry (sshDir : string) (keys : list string) (f : DirEntry)
  : list string :=
  if IsDir f then keys
  else
    let name := Name f in
    if HasPrefix name "id_" && negb (HasSuffix name ".pub")
    then keys ++ [filepath_Join [sshDir; name]]
    else keys.

Definition ScanSSHPrivateKeys (w : World) : list string * option error :=
  let sshDir := filepath_Join [os_Getenv "HOME" w; ".ssh"] in
  match os_ReadDir sshDir w with
  | inr err => ([], Some err)
  | inl files => (fold_left (scan_entry sshDir) files [], None)
  end.
End ConfigShared.

(** ** [cmd/decrypt.go]: [tryAllKeys] and the [decrypt] command *)

Section DecryptCommand.
Context {World : Type} `{Platform World}.

(** The control flow of [tryAllKeys] and of the command is stated over the
    decryption attempt it calls, so that both outcomes of an attempt can be
    followed; the package calls [tryDecrypt] there. *)
Variable attempt : string -> string -> string -> World -> option error * World.

Definition trying_fields (input output keyPath : string)
  : list (string * string) :=
  [("input", input); ("output", output); ("sshKey", keyPath)].

(** [triedKeys] is the slice behind the pointer argument, given and
    returned. *)
Fixpoint tryAllKeys_with (keys : list string) (input output : string)
    (triedKeys : list string) (st : State World)
  : (bool * list string) * State World :=
  match keys with
  | [] => ((false, triedKeys), st)
  | keyPath :: rest =>
      let triedKeys := triedKeys ++ [keyPath] in
      let st := log_Info (trying_fields input output keyPath)
                  "Trying decryption with SSH key" st in
      let (err, st) := in_world (attempt keyPath output input) st in
      match err with
      | None =>
          let st := log_Info [] "Decryption successful" st in
          ((true, triedKeys), st)
      | Some e =>
          let st := log_Warn (WithError e)
                      ("Decryption failed with key " +:+ keyPath) st in
          tryAllKeys_with rest input output triedKeys st
      end
  end.

(** [RunE] of the command returned by [Decrypt(cfg, log)], on the values of
    the flags [--input], [--output] and [--ssh-key]. *)
Definition Decrypt_RunE_with (cfg : Config) (input output sshKeyFlag : string)
    (st : State World) : option error * State World :=
  if String.eqb input "" then (Some "input file is required", st)
  else if String.eqb output "" then (Some "output file is required", st)
  else
  match os_Stat input (world st) with
  | inr err => (Some ("input file does not exist: " +:+ err), st)
  | inl _ =>
  let sshKey := selectSSHKey sshKeyFlag cfg in
  let triedKeys : list string := [] in
  let success := false in
  (* lines 112-115, reached from both branches *)
  let finish (success : bool) (triedKeys : list string) (st : State World) :=
    if negb success
    then (Some ("decryption failed: none of the tried SSH keys matched"
                +:+ String "010" "Tried keys: " +:+ fmt_v triedKeys), st)
    else (None, st) in
  if negb (String.eqb sshKey "") then
    let triedKeys := triedKeys ++ [sshKey] in
    let st := log_Info (trying_fields input output sshKey)
                "Trying decryption with provided SSH key" st in
    let (err, st) := in_world (attempt sshKey output input) st in
    match err with
    | None =>
        let st := log_Info [] "Decryption successful" st in
        finish true triedKeys st
    | Some e =>
        let st := log_Warn (WithError e)
                    "Decryption failed with provided SSH key" st in
        finish success triedKeys st
    end
  else
    let (keys, err) := ScanSSHPrivateKeys (world st) in
    match err with
    | Some e =>
        (Some ("could not scan ~/.ssh for private keys: " +:+ e), st)
    | None =>
        let '((success, triedKeys), st) :=
          tryAllKeys_with keys input output triedKeys st in
        finish success triedKeys st
    end
  end.

(** The world reached when every key of [keys], tried in this order from
    [w], is refused; [None] when one of them decrypts at its turn. *)
Fixpoint refused_all (keys : list string) (input output : string) (w : World)
  : option World :=
  match keys with
  | [] => Some w
  | k :: rest =>
      match attempt k output input w with
      | (Some _, w') => refused_all rest input output w'
      | (None, _) => None
      end
  end.
End DecryptCommand.

Definition tryAllKeys {World : Type} `{Platform World} :=
  tryAllKeys_with tryDecrypt.

Definition Decrypt_RunE {World : Type} `{Platform World} :=
  Decrypt_RunE_with tryDecrypt.

(** The value of a field of a log entry. *)
Definition log_field (k : string) (e : LogEntry) : option string :=
  match List.find (fun kv => String.eqb (fst kv) k) (log_fields e) with
  | Some kv => Some (snd kv)
  | None => None
  end.

(** The keys for which the log records a decryption attempt: the values of
    the field ["sshKey"] of the entries that have one, in the order logged. *)
Definition attempted_keys (l : list LogEntry) : list string :=
  omap (log_field "sshKey") l.

(** ** [cmd/encrypt.go]: [collectRecipients] *)

Definition is_alnum (c : ascii) : bool :=
  let n := N_of_ascii c in
  ((48 <=? n) && (n <=? 57) || (65 <=? n) && (n <=? 90)
   || (97 <=? n) && (n <=? 122))%N.

Definition is_alnum_or_dash (c : ascii) : bool :=
  is_alnum c || Ascii.eqb c "-".

(** [validUser.MatchString] for the pattern
    [^[a-zA-Z0-9](?:[a-zA-Z0-9-]{0,37}[a-zA-Z0-9])?$]: one letter or digit,
    then either nothing or at most 37 letters, digits or dashes followed by a
    letter or digit. *)
Definition validUser_MatchString (s : string) : bool :=
  match String.list_ascii_of_string s with
  | [] => false
  | c :: rest =>
      is_alnum c
      && match List.rev rest with
         | [] => true
         | z :: middle_rev =>
             is_alnum z && forallb is_alnum_or_dash middle_rev
             && Nat.leb (length middle_rev) 37
         end
  end.

Section Encrypt.
Context {World : Type} `{Platform World}.

(** The body of the loop over the lines of the response. *)
Definition add_github_key (githubKeys : list string) (line : string)
  : list string :=
  let line := strings_TrimSpace line in
  if negb (String.eqb line "") then githubKeys ++ [line] else githubKeys.

Definition collectRecipients (cfg : Config) (recipients : list string)
    (ghUserFlag : string) (st : State World)
  : (list string * string * option error) * State World :=
  let allRecipients := [] ++ DefaultRecipients cfg in
  let allRecipients := allRecipients ++ recipients in
  let ghUser := ghUserFlag in
  let ghUser :=
    if String.eqb ghUser "" && negb (String.eqb (GitHubUser cfg) "")
    then GitHubUser cfg else ghUser in
  if negb (String.eqb ghUser "") then
    if negb (validUser_MatchString ghUser) then
      let st := log_Warn [] ("Invalid GitHub username: " +:+ ghUser) st in
      ((allRecipients, ghUser, None), st)
    else
      let url := "https://github.com/" +:+ ghUser +:+ ".keys" in
      if negb (HasPrefix url "https://github.com/")
         || negb (HasSuffix url ".keys")
      then
        let st := log_Warn []
                    ("Refusing to fetch keys from non-GitHub URL: " +:+ url)
                    st in
        ((allRecipients, ghUser, None), st)
      else
        let (got, st) := in_world (http_Get url) st in
        match got with
        | inr err =>
            let st := log_Warn (WithError err)
                        ("Failed to fetch GitHub keys for user " +:+ ghUser)
                        st in
            ((allRecipients, ghUser, None), st)
        | inl resp =>
            let githubKeys : list string := [] in
            let (githubKeys, st) :=
              if StatusCode resp =? 200 then
                let (body, err) := Body_ReadAll resp in
                let closeErr := Body_Close resp in
                match err, closeErr with
                | None, None =>
                    (fold_left add_github_key (Split body "010") githubKeys,
                     st)
                | _, _ =>
                    let st :=
                      match err with
                      | Some e =>
                          log_Warn (WithError e)
                            "Failed to read GitHub keys response body" st
                      | None => st
                      end in
                    let st :=
                      match closeErr with
                      | Some e =>
                          log_Warn (WithError e)
                            "Failed to close GitHub keys response body" st
                      | None => st
                      end in
                    (githubKeys, st)
                end
              else
                let st := log_Warn []
                            ("GitHub returned status "
                             +:+ fmt_d (StatusCode resp)
                             +:+ " for user " +:+ ghUser) st in
                (githubKeys, st) in
            let allRecipients := allRecipients ++ githubKeys in
            ((allRecipients, ghUser, None), st)
        end
  else ((allRecipients, ghUser, None), st).

Definition runAgeEncrypt (ageArgs : list string) (st : State World)
  : option error * State World :=
  let ageBin := "age" in
  if negb (String.eqb ageBin "age")
  then (Some ("invalid binary for encryption: " +:+ ageBin), st)
  else
    let (err, st) := in_world (exec_Run ageBin ageArgs) st in
    match err with
    | Some e =>
        let st := log_entry (mkLogEntry ErrorLevel (WithError e)
                               "Encryption failed") st in
        (Some ("age encryption failed: " +:+ e), st)
    | None => (None, st)
    end.

(** [RunE] of the command returned by [Encrypt(cfg, log)], on the values of
    the flags [--input], [--output], [--recipient] and [--github-user].  The
    field ["recipients"] of the log entry is rendered with [%v]. *)
Definition Encrypt_RunE (cfg : Config) (input output : string)
    (recipients : list string) (ghUserFlag : string) (st : State World)
  : option error * State World :=
  if String.eqb input "" then (Some "input file is required", st)
  else if String.eqb output "" then (Some "output file is required", st)
  else
  match os_Stat input (world st) with
  | inr err => (Some ("input file does not exist: " +:+ err), st)
  | inl _ =>
  let '((allRecipients, ghUser, err), st) :=
    collectRecipients cfg recipients ghUserFlag st in
  match err with
  | Some e => (Some e, st)
  | None =>
  if Nat.eqb (length allRecipients) 0
  then (Some "at least one recipient is required", st)
  else
  let (ageArgs, err) := buildAgeArgs output input allRecipients in
  match err with
  | Some e => (Some e, st)
  | None =>
  let st := log_Info [("input", input); ("output", output);
                      ("recipients", fmt_v allRecipients);
                      ("githubUser", ghUser)] "Encrypting file" st in
  let (err, st) := runAgeEncrypt ageArgs st in
  match err with
  | Some e => (Some e, st)
  | None =>
      let st := log_Info [] "Encryption successful" st in
      (None, st)
  end end end end.
End Encrypt.

(** ** A simulated world, to run the package on concrete inputs *)

Module Sim.

Record World := mkWorld {
  home : string;
  (** regular files: mode and content *)
  files : gmap string (Z * string);
  (** directories and their listings *)
  dirs : gmap string (list DirEntry);
  (** the key files with which [age] can decrypt the input *)
  decrypting : list string;
  (** what the network answers to a GET, per URL *)
  web : gmap string Response;
  (** the processes launched so far, oldest first *)
  launched : list (string * list string)
}.

Definition set_files (w : World) (fs : gmap string (Z * string)) : World :=
  mkWorld (home w) fs (dirs w) (decrypting w) (web w) (launched w).
Definition set_dirs (w : World) (ds : gmap string (list DirEntry)) : World :=
  mkWorld (home w) (files w) ds (decrypting w) (web w) (launched w).
Definition launch (w : World) (bin : string) (args : list string) : World :=
  mkWorld (home w) (files w) (dirs w) (decrypting w) (web w)
    (launched w ++ [(bin, args)]).

Definition no_such (op path : string) : error :=
  op +:+ " " +:+ path +:+ ": no such file or directory".

Fixpoint trim_left (s : string) : string :=
  match s with
  | String c s' => if Ascii.is_space c then trim_left s' else s
  | EmptyString => EmptyString
  end.

(** [age -d -i key -o output input] succeeds with a decrypting key, and
    [age -o output ...] always; every launch is recorded. *)
Definition run (bin : string) (args : list string) (w : World)
  : option error * World :=
  let w' := launch w bin args in
  if negb (String.eqb bin "age") then (Some "exit status 127", w')
  else
    match args with
    | [d; i; key; o; _; _] =>
        if String.eqb d "-d" && String.eqb i "-i" && String.eqb o "-o"
        then if bool_decide (key ∈ decrypting w)
             then (None, w') else (Some "exit status 1", w')
        else if String.eqb d "-o" then (None, w')
        else (Some "exit status 1", w')
    | o :: _ =>
        if String.eqb o "-o" then (None, w') else (Some "exit status 1", w')
    | [] => (Some "exit status 1", w')
    end.

#[global] Instance platform : Platform World := {|
  os_Getenv name w := if String.eqb name "HOME" then home w else "";
  os_UserConfigDir w := inl (home w +:+ "/.config");
  os_Stat path w :=
    match files w !! path with
    | Some (mode, _) => inl (mkFileInfo mode)
    | None =>
        match dirs w !! path with
        | Some _ => inl (mkFileInfo (Z.lor (Z.shiftl 1 31) 448))
        | None => inr (no_such "stat" path)
        end
    end;
  os_ReadDir path w :=
    match dirs w !! path with
    | Some entries => inl entries
    | None => inr (no_such "open" path)
    end;
  os_ReadFile path w :=
    match files w !! path with
    | Some (_, data) => inl data
    | None => inr (no_such "open" path)
    end;
  (* a new file gets the mode asked for, an existing one keeps its own *)
  os_WriteFile path data perm w :=
    match files w !! path with
    | Some (mode, _) => (None, set_files w (<[path := (mode, data)]> (files w)))
    | None =>
        match dirs w !! path with
        | Some _ => (Some ("open " +:+ path +:+ ": is a directory"), w)
        | None => (None, set_files w (<[path := (perm, data)]> (files w)))
        end
    end;
  os_MkdirAll path perm w :=
    match dirs w !! path with
    | Some _ => (None, w)
    | None => (None, set_dirs w (<[path := []]> (dirs w)))
    end;
  filepath_Join elems :=
    Join (List.filter (fun e => negb (String.eqb e "")) elems) "/";
  filepath_Abs path w := inl path;
  exec_Run := run;
  http_Get url w :=
    match web w !! url with
    | Some resp => (inl resp, w)
    | None => (inr ("Get " +:+ url +:+ ": no route to host"), w)
    end;
  yaml_Marshal cfg := inl ("ssh_key_path: " +:+ SSHKeyPath cfg);
  yaml_Unmarshal data cfg := (cfg, None);
  strings_TrimSpace s := String.rev (trim_left (String.rev (trim_left s)))
|}.

(** The attempt that hands the key to [age] without any check. *)
Definition age_attempt (keyPath output input : string) (w : World)
  : option error * World :=
  exec_Run "age" ["-d"; "-i"; keyPath; "-o"; output; input] w.

Definition ssh_dir : list DirEntry :=
  [ mkDirEntry "config" false;
    mkDirEntry "id_ecdsa" false;
    mkDirEntry "id_ecdsa.pub" false;
    mkDirEntry "id_ed25519" false;
    mkDirEntry "id_ed25519.pub" false;
    mkDirEntry "id_keys" true;
    mkDirEntry "id_rsa" false;
    mkDirEntry "id_rsa.pub" false;
    mkDirEntry "known_hosts" false ].

Definition github_ok : Response :=
  mkResponse 200
    ("ssh-ed25519 AAAAC3Nz one" +:+ String "010"
       ("  ssh-rsa AAAAB3Nz two " +:+ String "010" ""), None)
    None.

(** A home directory with three private keys, of which [id_rsa] decrypts
    the file [/home/u/secret.age]; the configuration file is readable by
    others. *)
Definition w0 : World := {|
  home := "/home/u";
  files := {[ "/home/u/secret.age" := (420, "age-encryption.org/v1");
              "/home/u/.config/a/config.yaml" := (420, "ssh_key_path: ") ]};
  dirs := {[ "/home/u/.ssh" := ssh_dir ]};
  decrypting := ["/home/u/.ssh/id_rsa"];
  web := {[ "https://github.com/octocat.keys" := github_ok;
            "https://github.com/ghost.keys" := mkResponse 404 ("", None) None ]};
  launched := []
|}.

Definition st0 : State World := mkState w0 [].

(** The same home directory when no key decrypts the file. *)
Definition w1 : World :=
  mkWorld (home w0) (files w0) (dirs w0) [] (web w0) (launched w0).

Definition st1 : State World := mkState w1 [].

End Sim.

(** The encrypted file and the private keys of the simulated home. *)
Definition secret : string := "/home/u/secret.age".
Definition id_ecdsa : string := "/home/u/.ssh/id_ecdsa".
Definition id_ed25519 : string := "/home/u/.ssh/id_ed25519".
Definition id_rsa : string := "/home/u/.ssh/id_rsa".

(** * Vocabulary of the properties *)

(** [s] ends in [suffix]; [s] starts with [prefix]. *)
Definition ends_in (s suffix : string) : Prop := exists p, s = p +:+ suffix.
Definition starts_with (s prefix : string) : Prop := exists t, s = prefix +:+ t.

Definition has_empty (l : list string) : bool :=
  existsb (fun s => String.eqb s "") l.

(** The arguments [-r r1 ... -r rn] of a list of recipients. *)
Definition recipient_args (recipients : list string) : list string :=
  flat_map (fun r => ["-r"; r]) recipients.

Definition expected_ageArgs (output input : string) (recipients : list string)
  : list string :=
  ["-o"; output] ++ recipient_args recipients ++ [input].

Definition empty_argument : error :=
  "invalid argument for encryption: empty string".

Definition unexpected_flag (arg : string) : error :=
  "unexpected flag in age arguments: " +:+ arg.

(** The error with which [tryDecrypt] answers its three arguments. *)
Definition refusal (keyPath output input : string) : error :=
  if negb (map_index decryptFlags keyPath) then unexpected_flag keyPath
  else if negb (map_index decryptFlags output) then unexpected_flag output
  else if String.eqb input ""
  then "invalid argument for decryption: empty string"
  else "invalid key file for decryption: " +:+ keyPath.

(** An entry that is not a directory and whose name starts with [id_] and
    does not end with [.pub]. *)
Definition private_key_entry (f : DirEntry) : bool :=
  negb (IsDir f) && HasPrefix (Name f) "id_" && negb (HasSuffix (Name f) ".pub").

(** The error of the command when no key matched. *)
Definition none_matched (triedKeys : list string) : error :=
  "decryption failed: none of the tried SSH keys matched"
  +:+ String "010" "Tried keys: " +:+ fmt_v triedKeys.

(** The candidate keys of the command: the selected key alone, or the
    scanned keys when no key is selected. *)
Definition candidates (sshKey : string) (scanned : list string) : list string :=
  if decide (sshKey = "") then scanned else [sshKey].

(** The statement that the command falls back after a selected key failed:
    before it reports failure it has attempted every scanned key. *)
Definition falls_back_after_selected_key {World : Type} `{Platform World}
    (attempt : string -> string -> string -> World -> option error * World)
    (cfg : Config) (input output sshKeyFlag : string) (st : State World) : Prop :=
  let sshKey := selectSSHKey sshKeyFlag cfg in
  sshKey <> "" ->
  fst (attempt sshKey output input (world st)) <> None ->
  forall keys, ScanSSHPrivateKeys (world st) = (keys, None) ->
  forall result st',
    Decrypt_RunE_with attempt cfg input output sshKeyFlag st = (result, st') ->
    result <> None ->
    forall k, k ∈ keys -> k ∈ attempted_keys (logged st').

(** The GitHub user of a run: the flag, or the configured user when the flag
    is empty. *)
Definition github_user (cfg : Config) (ghUserFlag : string) : string :=
  if decide (ghUserFlag = "") then GitHubUser cfg else ghUserFlag.

(** The lines of a response kept as keys: trimmed and not empty. *)
Definition github_keys {World : Type} `{Platform World} (body : string)
  : list string :=
  List.filter (fun line => negb (String.eqb line ""))
    (map strings_TrimSpace (Split body "010")).

(** A warning was logged between two states. *)
Definition warned {World : Type} (st st' : State World) : Prop :=
  exists new e,
    logged st' = logged st ++ new /\ e ∈ new /\ log_level e = WarnLevel.

(** ** Vocabulary of the further properties *)

Definition invalid_output (output : string) : error :=
  "invalid output file for encryption: " +:+ output.

(** The address from which [collectRecipients] fetches the keys of a user. *)
Definition keys_url (ghUser : string) : string :=
  "https://github.com/" +:+ ghUser +:+ ".keys".

Definition refusing_to_fetch (url : string) : error :=
  "Refusing to fetch keys from non-GitHub URL: " +:+ url.

(** A user name as GitHub writes them: 1 to 39 letters, digits or dashes,
    the first and the last a letter or a digit. *)
Definition user_name_shape (s : string) : Prop :=
  let cs := String.list_ascii_of_string s in
  (1 <= length cs <= 39)%nat
  /\ Forall (fun c => is_alnum_or_dash c = true) cs
  /\ (exists c, head cs = Some c /\ is_alnum c = true)
  /\ (exists c, last cs = Some c /\ is_alnum c = true).

(** The fields of the entry [Encrypt] logs before it runs [age]. *)
Definition encrypting_fields (input output : string) (all : list string)
    (ghUser : string) : list (string * string) :=
  [("input", input); ("output", output); ("recipients", fmt_v all);
   ("githubUser", ghUser)].

(** The error of the [decrypt] command as shipped, read off its inputs. *)
Definition shipped_decrypt_error {World : Type} `{Platform World}
    (cfg : Config) (input output sshKeyFlag : string) (w : World) : error :=
  if String.eqb input "" then "input file is required"
  else if String.eqb output "" then "output file is required"
  else
    match os_Stat input w with
    | inr e => "input file does not exist: " +:+ e
    | inl _ =>
        let sshKey := selectSSHKey sshKeyFlag cfg in
        if String.eqb sshKey "" then
          match ScanSSHPrivateKeys w with
          | (_, Some e) => "could not scan ~/.ssh for private keys: " +:+ e
          | (keys, None) => none_matched keys
          end
        else none_matched [sshKey]
    end.

(** A configuration with one default recipient, and the simulated world
    after a configuration was saved to a new file. *)
Definition cfg_one_recipient : Config :=
  mkConfig "" "" ["/home/u/.ssh/id_rsa.pub"] 0 "".

Definition w_saved : Sim.World :=
  snd (SaveConfig "/home/u/.config/a/new.yaml" zeroConfig Sim.w0).

(** The directory of the default log file. *)
Definition state_dir {World : Type} `{Platform World} (w : World) : string :=
  filepath_Join [os_Getenv "HOME" w; ".state"; "a"].

(** ** Vocabulary of the amended statements *)

(** The simulated world in which [id_ed25519], the second key of the scan,
    decrypts the input. *)
Definition w_ed25519 : Sim.World :=
  Sim.mkWorld (Sim.home Sim.w0) (Sim.files Sim.w0) (Sim.dirs Sim.w0)
    [id_ed25519] (Sim.web Sim.w0) (Sim.launched Sim.w0).



(** The statement that leaving the GitHub keys out never fails the
    [encrypt] command: on an input that exists, an output with one of the
    two suffixes and recipients none of which is empty, when
    [collectRecipients] left the GitHub keys out with a warning, the command
    fails only if [age] does. *)
Definition omitted_keys_never_fail_encrypt {World : Type} `{Platform World}
    (cfg : Config) (input output : string) (recipients : list string)
    (ghUserFlag : string) (st : State World) : Prop :=
  input <> "" ->
  (exists info, os_Stat input (world st) = inl info) ->
  (ends_in output ".txt" \/ ends_in output ".out") ->
  "" ∉ DefaultRecipients cfg ++ recipients ->
  forall ghUser st1,
    collectRecipients cfg recipients ghUserFlag st
    = ((DefaultRecipients cfg ++ recipients, ghUser, None), st1) ->
    warned st st1 ->
    forall err,
      fst (Encrypt_RunE cfg input output recipients ghUserFlag st) = Some err ->
      exists e, err = "age encryption failed: " +:+ e.

(** * Properties *)

(** ** The library functions on sample values *)

Example HasSuffix_values :
  HasSuffix "id_rsa.pub" ".pub" = true /\ HasSuffix "pub" ".pub" = false
  /\ HasSuffix "/home/u/.ssh/id_rsa" "id_rsa" = true
  /\ HasSuffix "notes.txt.gz" ".txt" = false.
Proof. vm_compute. repeat split; reflexivity. Qed.

Example HasPrefix_values :
  HasPrefix "id_rsa" "id_" = true /\ HasPrefix "id" "id_" = false
  /\ HasPrefix "my_id_rsa" "id_" = false.
Proof. vm_compute. repeat split; reflexivity. Qed.

Example Split_values :
  Split ("a" +:+ String "010" ("b" +:+ String "010" "")) "010" = ["a"; "b"; ""]
  /\ Split "" "010" = [""].
Proof. vm_compute. split; reflexivity. Qed.

Example fmt_values :
  fmt_v ["a"; "b"] = "[a b]" /\ fmt_v [] = "[]"
  /\ fmt_o 420 = "644" /\ fmt_o 384 = "600" /\ fmt_d 404 = "404".
Proof. vm_compute. repeat split; reflexivity. Qed.

Example validUser_values :
  validUser_MatchString "octocat" = true
  /\ validUser_MatchString "a" = true
  /\ validUser_MatchString "a--b" = true
  /\ validUser_MatchString "" = false
  /\ validUser_MatchString "-bad" = false
  /\ validUser_MatchString "bad-" = false
  /\ validUser_MatchString "a_b" = false
  /\ validUser_MatchString "a/../b" = false
  /\ validUser_MatchString "aaaaaaaaaaaaaaaaaaaaaaaaaaaaaaaaaaaaaaa" = true
  /\ validUser_MatchString "aaaaaaaaaaaaaaaaaaaaaaaaaaaaaaaaaaaaaaaa" = false.
Proof. vm_compute. repeat split; reflexivity. Qed.

Example map_index_values :
  map_index decryptFlags "-i" = true /\ map_index decryptFlags "-r" = false
  /\ map_index encryptFlags "-r" = true /\ map_index encryptFlags "" = false.
Proof. vm_compute. repeat split; reflexivity. Qed.

(** ** Strings *)

Section StringFacts.
Local Open Scope nat_scope.

Lemma str_app_cons c s t : String c s +:+ t = String c (s +:+ t).
Proof. reflexivity. Qed.

Lemma str_app_assoc s t u : (s +:+ t) +:+ u = s +:+ (t +:+ u).
Proof. induction s as [|c s IH]; [done|]. by rewrite !str_app_cons, IH. Qed.

Lemma str_length_app s t :
  String.length (s +:+ t) = String.length s + String.length t.
Proof. induction s as [|c s IH]; [done|]. simpl. by rewrite IH. Qed.

Lemma substring_all s : String.substring 0 (String.length s) s = s.
Proof. induction s as [|c s IH]; [done|]. simpl. by rewrite IH. Qed.

Lemma substring_app_l p s :
  String.substring 0 (String.length p) (p +:+ s) = p.
Proof.
  induction p as [|c p IH]; simpl.
  - by destruct s.
  - by rewrite IH.
Qed.

Lemma substring_app_r s x :
  String.substring (String.length s) (String.length x) (s +:+ x) = x.
Proof.
  induction s as [|c s IH]; simpl.
  - apply substring_all.
  - done.
Qed.

Lemma substring_split s n :
  n <= String.length s ->
  s = String.substring 0 n s +:+ String.substring n (String.length s - n) s.
Proof.
  revert n. induction s as [|c s IH]; intros [|n] Hn; simpl in *; try lia.
  - done.
  - by rewrite substring_all.
  - rewrite str_app_cons. f_equal. apply IH. lia.
Qed.

Lemma HasSuffix_spec s suffix : HasSuffix s suffix = true <-> ends_in s suffix.
Proof.
  unfold HasSuffix, ends_in. rewrite andb_true_iff, Nat.leb_le, String.eqb_eq.
  split.
  - intros [Hle Hsub].
    exists (String.substring 0 (String.length s - String.length suffix) s).
    pose proof (substring_split s (String.length s - String.length suffix))
      as Hsplit.
    replace (String.length s - (String.length s - String.length suffix))
      with (String.length suffix) in Hsplit by lia.
    rewrite Hsub in Hsplit. apply Hsplit. lia.
  - intros [p ->]. rewrite str_length_app. split; [lia|].
    replace (String.length p + String.length suffix - String.length suffix)
      with (String.length p) by lia.
    apply substring_app_r.
Qed.

Lemma HasPrefix_spec s prefix :
  HasPrefix s prefix = true <-> starts_with s prefix.
Proof.
  unfold HasPrefix, starts_with.
  rewrite andb_true_iff, Nat.leb_le, String.eqb_eq. split.
  - intros [Hle Hsub].
    exists (String.substring (String.length prefix)
              (String.length s - String.length prefix) s).
    pose proof (substring_split s (String.length prefix) Hle) as Hsplit.
    by rewrite Hsub in Hsplit.
  - intros [t ->]. rewrite str_length_app. split; [lia|].
    apply substring_app_l.
Qed.

Lemma HasSuffix_false s suffix :
  HasSuffix s suffix = false <-> ~ ends_in s suffix.
Proof.
  rewrite <- HasSuffix_spec. destruct (HasSuffix s suffix); naive_solver.
Qed.
End StringFacts.

(** ** [buildAgeArgs] *)

Lemma has_empty_In l : has_empty l = true <-> "" ∈ l.
Proof.
  unfold has_empty. rewrite existsb_exists. setoid_rewrite <- list_elem_of_In.
  split.
  - intros (s & Hin & Heq). apply String.eqb_eq in Heq. by subst.
  - intros Hin. exists "". split; [done|]. apply String.eqb_refl.
Qed.

Lemma append_recipients rs init :
  fold_left (fun acc r => acc ++ ["-r"; r]) rs init = init ++ recipient_args rs.
Proof.
  revert init. induction rs as [|r rs IH]; intros init; simpl.
  - by rewrite app_nil_r.
  - rewrite IH. by rewrite <- app_assoc.
Qed.

Lemma length_recipient_args rs :
  length (recipient_args rs) = (2 * length rs)%nat.
Proof. induction rs as [|r rs IH]; simpl; [done|]. rewrite IH. lia. Qed.

Lemma map_index_encrypt_r : map_index encryptFlags "-r" = true.
Proof. reflexivity. Qed.

Lemma map_index_encrypt_o : map_index encryptFlags "-o" = true.
Proof. reflexivity. Qed.

(** The loop on the part of the arguments that follows the output: at an
    even index before the last two it meets ["-r"], elsewhere a recipient or
    the input. *)
Lemma check_recipients n input rs i :
  i mod 2 = 0 ->
  i + 2 * Z.of_nat (length rs) + 1 = n ->
  buildAgeArgs_check n i (recipient_args rs ++ [input])
  = if has_empty (rs ++ [input]) then Some empty_argument else None.
Proof.
  revert i. induction rs as [|r rs IH]; intros i Heven Hn.
  - simpl in *.
    replace ((i mod 2 =? 0) && (i <? n - 2)) with false
      by (symmetry; apply andb_false_iff; right; lia).
    by destruct (String.eqb input "").
  - cbn [recipient_args flat_map app buildAgeArgs_check].
    fold (recipient_args rs).
    replace ((i mod 2 =? 0) && (i <? n - 2)) with true
      by (symmetry; apply andb_true_iff; split;
          [apply Z.eqb_eq; done | apply Z.ltb_lt; simpl length in Hn; lia]).
    rewrite map_index_encrypt_r. cbn [negb].
    replace (((i + 1) mod 2 =? 0) && (i + 1 <? n - 2)) with false
      by (symmetry; apply andb_false_iff; left; apply Z.eqb_neq;
          Z.to_euclidean_division_equations; lia).
    cbn [has_empty existsb].
    destruct (String.eqb r ""); [done|]. cbn [orb].
    replace (i + 1 + 1) with (i + 2) by lia.
    apply IH.
    + Z.to_euclidean_division_equations; lia.
    + simpl length in Hn. lia.
Qed.

Lemma check_ageArgs output input rs :
  buildAgeArgs_check (Z.of_nat (length (expected_ageArgs output input rs))) 0
    (expected_ageArgs output input rs)
  = if has_empty (output :: rs ++ [input]) then Some empty_argument else None.
Proof.
  set (n := Z.of_nat (length (expected_ageArgs output input rs))).
  assert (Hn : n = 2 * Z.of_nat (length rs) + 3).
  { unfold n, expected_ageArgs. rewrite !length_app, length_recipient_args.
    simpl length. lia. }
  unfold expected_ageArgs. cbn [app buildAgeArgs_check].
  replace ((0 mod 2 =? 0) && (0 <? n - 2)) with true
    by (symmetry; apply andb_true_iff; split; [done | apply Z.ltb_lt; lia]).
  rewrite map_index_encrypt_o. cbn [negb].
  replace (((0 + 1) mod 2 =? 0) && (0 + 1 <? n - 2)) with false by done.
  cbn [has_empty existsb].
  destruct (String.eqb output ""); [done|]. cbn [orb].
  apply check_recipients; [done | lia].
Qed.

(** The flag test of [buildAgeArgs] never fires: whatever the output, the
    input and the recipients, the loop reports nothing but an empty
    argument. *)
Lemma buildAgeArgs_errors output input rs err :
  snd (buildAgeArgs output input rs) = Some err ->
  err = empty_argument
  \/ err = "invalid output file for encryption: " +:+ output.
Proof.
  unfold buildAgeArgs. rewrite append_recipients, <- app_assoc.
  fold (expected_ageArgs output input rs). rewrite check_ageArgs.
  destruct (has_empty _); simpl.
  - intros [= <-]. by left.
  - destruct (negb (HasSuffix output ".txt") && negb (HasSuffix output ".out"));
      simpl; intros [= <-]. by right.
Qed.

(** The half of C10 that holds: [buildAgeArgs] never returns the error
    "unexpected flag in age arguments". *)
Lemma buildAgeArgs_no_unexpected_flag output input rs arg :
  snd (buildAgeArgs output input rs) <> Some (unexpected_flag arg).
Proof.
  intros Herr. apply buildAgeArgs_errors in Herr.
  destruct Herr as [Herr|Herr]; discriminate Herr.
Qed.

(** C7. [buildAgeArgs] returns an error (and no arguments) whenever the
    output ends neither in [.txt] nor in [.out], or the output, the input or
    a recipient is the empty string; otherwise it returns, without error,
    exactly [-o output -r r1 ... -r rn input], recipients in the order
    given. *)
Theorem buildAgeArgs_validates (output input : string) (recipients : list string) :
  ((~ (ends_in output ".txt" \/ ends_in output ".out")
    \/ output = "" \/ input = "" \/ "" ∈ recipients) ->
   exists err, buildAgeArgs output input recipients = ([], Some err))
  /\
  ((ends_in output ".txt" \/ ends_in output ".out") ->
   output <> "" -> input <> "" -> "" ∉ recipients ->
   buildAgeArgs output input recipients
   = (["-o"; output] ++ flat_map (fun r => ["-r"; r]) recipients ++ [input],
      None)).
Proof.
  unfold buildAgeArgs. rewrite append_recipients, <- app_assoc.
  fold (expected_ageArgs output input recipients). rewrite check_ageArgs.
  destruct (has_empty (output :: recipients ++ [input])) eqn:Hempty.
  - split; [eauto|]. intros _ Hout Hin Hrs. exfalso.
    apply has_empty_In in Hempty.
    rewrite elem_of_cons, elem_of_app, list_elem_of_singleton in Hempty.
    destruct Hempty as [Heq|[Hmem|Heq]]; [by symmetry in Heq|done|by symmetry in Heq].
  - assert (Hnone : "" ∉ output :: recipients ++ [input]).
    { intros Hin. apply has_empty_In in Hin. congruence. }
    rewrite not_elem_of_cons, not_elem_of_app, list_elem_of_singleton in Hnone.
    destruct Hnone as (Hout & Hrs & Hin).
    assert (Hgood : ~ (output = "" \/ input = "" \/ "" ∈ recipients)).
    { intros [->|[->|Hmem]]; done. }
    destruct (HasSuffix output ".txt") eqn:Htxt; simpl.
    { apply HasSuffix_spec in Htxt. split; [|done].
      intros [Hbad|Hbad]; exfalso; [apply Hbad; by left | by apply Hgood]. }
    destruct (HasSuffix output ".out") eqn:Hsuf; simpl.
    { apply HasSuffix_spec in Hsuf. split; [|done].
      intros [Hbad|Hbad]; exfalso; [apply Hbad; by right | by apply Hgood]. }
    apply HasSuffix_false in Htxt, Hsuf.
    split; [eauto|]. intros [Hend|Hend]; by exfalso.
Qed.

(** ** [tryDecrypt] *)

Lemma decryptFlags_index k :
  map_index decryptFlags k = true <-> k ∈ ["-d"; "-i"; "-o"].
Proof.
  unfold map_index, decryptFlags. split.
  - intros Hk.
    destruct (decide (k = "-d")) as [->|Hd]; [set_solver|].
    destruct (decide (k = "-i")) as [->|Hi]; [set_solver|].
    destruct (decide (k = "-o")) as [->|Ho]; [set_solver|].
    rewrite lookup_insert_ne, lookup_insert_ne, lookup_singleton_ne in Hk
      by done.
    discriminate.
  - rewrite !elem_of_cons, elem_of_nil. intros [->|[->|[->|[]]]]; reflexivity.
Qed.

(** The loop of [tryDecrypt] on its six arguments: the indices 0, 2 and 4 it
    compares with the flags hold ["-d"], the key path and the output. *)
Lemma tryDecrypt_check_args keyPath output input :
  tryDecrypt_check 0 ["-d"; "-i"; keyPath; "-o"; output; input]
  = if negb (map_index decryptFlags keyPath) then Some (unexpected_flag keyPath)
    else if negb (map_index decryptFlags output)
    then Some (unexpected_flag output)
    else if String.eqb input ""
    then Some "invalid argument for decryption: empty string"
    else None.
Proof.
  cbn [tryDecrypt_check]. change (0 + 1) with 1. change (1 + 1) with 2.
  change (2 + 1) with 3. change (3 + 1) with 4. change (4 + 1) with 5.
  cbn [Z.eqb Pos.eqb orb negb andb String.eqb Ascii.eqb Bool.eqb].
  rewrite !andb_true_r.
  destruct (map_index decryptFlags keyPath); [|done].
  destruct (map_index decryptFlags output); [|done].
  by destruct (String.eqb input "").
Qed.

Section TryDecryptFacts.
Context {World : Type} `{Platform World}.

(** No key reaches [age]: a key path that passes the loop is one of the
    three flags, and none of them names a key file.  So [tryDecrypt] returns
    the error [refusal] and leaves the world as it was, on every input. *)
Lemma tryDecrypt_refuses keyPath output input (w : World) :
  tryDecrypt keyPath output input w
  = (Some (refusal keyPath output input), w).
Proof.
  unfold tryDecrypt, refusal.
  cbn [String.eqb Ascii.eqb Bool.eqb negb andb].
  rewrite tryDecrypt_check_args.
  destruct (map_index decryptFlags keyPath) eqn:Hk; [|done].
  destruct (map_index decryptFlags output) eqn:Ho; [|done].
  cbn [negb]. destruct (String.eqb input ""); [done|].
  apply decryptFlags_index in Hk.
  rewrite !elem_of_cons, elem_of_nil in Hk.
  by destruct Hk as [->|[->|[->|[]]]].
Qed.
End TryDecryptFacts.

(** C8. [tryDecrypt] returns an error whenever the key path ends neither in
    [id_rsa] nor in [id_ed25519], or the output ends neither in [.txt] nor
    in [.out], or the key path, the output or the input is empty.  The error
    is fixed by the three arguments alone and the world is left as it was,
    whatever the platform: [age] is not run.  A scanned key such as
    [id_ecdsa] is therefore refused by the wrapper itself.  (The wrapper
    refuses every other input in the same way.) *)
Theorem tryDecrypt_rejects_without_age (keyPath output input : string) :
  (~ (ends_in keyPath "id_rsa" \/ ends_in keyPath "id_ed25519")
   \/ ~ (ends_in output ".txt" \/ ends_in output ".out")
   \/ keyPath = "" \/ output = "" \/ input = "") ->
  exists err,
    forall (World : Type) (P : Platform World) (w : World),
      tryDecrypt keyPath output input w = (Some err, w).
Proof.
  intros _. exists (refusal keyPath output input).
  intros World P w. apply tryDecrypt_refuses.
Qed.

(** C10, the half that fails. For every key path other than the three
    flags, so for every path of a key file, [tryDecrypt] returns the error
    "unexpected flag in age arguments": its loop compares the indices 0, 2
    and 4 with the flags, and the flags stand at 0, 1 and 3. *)
Theorem tryDecrypt_unexpected_flag
    {World : Type} `{Platform World}
    (keyPath output input : string) (w : World) :
  keyPath ∉ ["-d"; "-i"; "-o"] ->
  tryDecrypt keyPath output input w = (Some (unexpected_flag keyPath), w).
Proof.
  intros Hk. rewrite tryDecrypt_refuses. unfold refusal.
  destruct (map_index decryptFlags keyPath) eqn:Hidx; [|done].
  by apply decryptFlags_index in Hidx.
Qed.

(** ** [ScanSSHPrivateKeys] *)

Section ScanFacts.
Context {World : Type} `{Platform World}.

Lemma scan_loop sshDir files keys :
  fold_left (scan_entry sshDir) files keys
  = keys ++ map (fun f => filepath_Join [sshDir; Name f])
              (List.filter private_key_entry files).
Proof.
  revert keys. induction files as [|f files IH]; intros keys; simpl.
  - by rewrite app_nil_r.
  - rewrite IH. unfold scan_entry, private_key_entry.
    destruct (IsDir f); simpl; [done|].
    destruct (HasPrefix (Name f) "id_" && negb (HasSuffix (Name f) ".pub"));
      simpl; [|done].
    by rewrite <- app_assoc.
Qed.

Lemma private_key_entry_spec f :
  private_key_entry f = true
  <-> IsDir f = false /\ starts_with (Name f) "id_" /\ ~ ends_in (Name f) ".pub".
Proof.
  unfold private_key_entry.
  rewrite !andb_true_iff, !negb_true_iff, HasPrefix_spec, HasSuffix_false.
  tauto.
Qed.

(** C6. On a readable directory [ScanSSHPrivateKeys] returns, without
    error and in the order of the listing, the entries that are not
    directories and whose name starts with [id_] and does not end with
    [.pub], each joined to the directory path; it returns an error exactly
    when the directory cannot be read. *)
Theorem ScanSSHPrivateKeys_lists_private_keys (w : World) :
  let sshDir := filepath_Join [os_Getenv "HOME" w; ".ssh"] in
  (forall files, os_ReadDir sshDir w = inl files ->
     ScanSSHPrivateKeys w
     = (map (fun f => filepath_Join [sshDir; Name f])
          (List.filter private_key_entry files), None)
     /\ forall f, f ∈ List.filter private_key_entry files
                  <-> f ∈ files /\ IsDir f = false
                      /\ starts_with (Name f) "id_"
                      /\ ~ ends_in (Name f) ".pub")
  /\ (forall err, os_ReadDir sshDir w = inr err ->
        ScanSSHPrivateKeys w = ([], Some err))
  /\ (snd (ScanSSHPrivateKeys w) <> None
      <-> exists err, os_ReadDir sshDir w = inr err).
Proof.
  intros sshDir. unfold ScanSSHPrivateKeys. fold sshDir.
  split; [|split].
  - intros files ->. split.
    + by rewrite scan_loop.
    + intros f. rewrite !list_elem_of_In, filter_In, private_key_entry_spec.
      tauto.
  - by intros err ->.
  - destruct (os_ReadDir sshDir w) as [files|err]; simpl.
    + split; [done|]. by intros [err [=]].
    + split; [eauto|done].
Qed.
End ScanFacts.

(** ** [tryAllKeys] *)

Section TryAllKeysFacts.
Context {World : Type} `{Platform World}.
Variable attempt : string -> string -> string -> World -> option error * World.

Lemma attempted_keys_snoc l e :
  attempted_keys (l ++ [e])
  = attempted_keys l ++ option_list (log_field "sshKey" e).
Proof.
  unfold attempted_keys. rewrite omap_app. simpl.
  by destruct (log_field "sshKey" e).
Qed.

Lemma refused_all_app ks1 ks2 input output (w : World) :
  refused_all attempt (ks1 ++ ks2) input output w
  = refused_all attempt ks1 input output w
      ≫= refused_all attempt ks2 input output.
Proof.
  revert w. induction ks1 as [|k ks1 IH]; intros w; simpl; [done|].
  destruct (attempt k output input w) as [[e|] w']; [apply IH|done].
Qed.

(** One run of the loop: the keys split into those refused in turn and the
    rest; the loop stops at the head of the rest, which decrypts, or the
    rest is empty. *)
Lemma tryAllKeys_with_run keys input output triedKeys (st : State World) :
  exists refused rest wmid success st',
    tryAllKeys_with attempt keys input output triedKeys st
    = ((success, triedKeys ++ refused ++ take 1 rest), st')
    /\ keys = refused ++ rest
    /\ refused_all attempt refused input output (world st) = Some wmid
    /\ attempted_keys (logged st')
       = attempted_keys (logged st) ++ refused ++ take 1 rest
    /\ match rest with
       | [] => success = false /\ world st' = wmid
       | k :: _ =>
           success = true
           /\ attempt k output input wmid = (None, world st')
       end.
Proof.
  revert triedKeys st.
  induction keys as [|k keys IH]; intros triedKeys st.
  - exists [], [], (world st), false, st. simpl.
    by rewrite !app_nil_r.
  - cbn [tryAllKeys_with]. unfold in_world at 1.
    cbn [world logged log_Info log_entry].
    destruct (attempt k output input (world st)) as [[e|] w1] eqn:Hk.
    + destruct (IH (triedKeys ++ [k])
                  (log_Warn (WithError e)
                     ("Decryption failed with key " +:+ k)
                     (mkState w1
                        (logged st
                         ++ [mkLogEntry InfoLevel
                               (trying_fields input output k)
                               "Trying decryption with SSH key"]))))
        as (refused & rest & wmid & success & st' & Hrun & -> & Hall & Hlog & Hrest).
      exists (k :: refused), rest, wmid, success, st'.
      split; [|split; [|split; [|split]]].
      * rewrite Hrun. by rewrite <- !app_assoc.
      * done.
      * simpl. by rewrite Hk.
      * rewrite Hlog. cbn [logged log_Warn log_entry].
        rewrite !attempted_keys_snoc. simpl. by rewrite <- !app_assoc.
      * done.
    + exists [], (k :: keys), (world st), true.
      eexists. split; [reflexivity|].
      cbn [logged log_Info log_entry world].
      rewrite !attempted_keys_snoc. simpl.
      by rewrite <- !app_assoc, ?app_nil_r.
Qed.

(** C2. [tryAllKeys] attempts the keys one after the other in the order of
    the list: the keys before the one it stops at were each refused in
    turn; it stops at the first key that decrypts and returns [true]; it
    returns [false] exactly when every key of the list is refused; and
    [triedKeys] grows by the prefix of the list that ends with the last key
    attempted. *)
Theorem tryAllKeys_stops_at_first_success
    (keys : list string) (input output : string) (triedKeys : list string)
    (st : State World) :
  exists refused rest wmid success st',
    tryAllKeys_with attempt keys input output triedKeys st
    = ((success, triedKeys ++ refused ++ take 1 rest), st')
    /\ keys = refused ++ rest
    /\ refused_all attempt refused input output (world st) = Some wmid
    /\ match rest with
       | [] => success = false /\ world st' = wmid
       | k :: _ =>
           success = true
           /\ attempt k output input wmid = (None, world st')
       end
    /\ (success = false
        <-> is_Some (refused_all attempt keys input output (world st))).
Proof.
  destruct (tryAllKeys_with_run keys input output triedKeys st)
    as (refused & rest & wmid & success & st' & Hrun & Hkeys & Hall & _ & Hrest).
  exists refused, rest, wmid, success, st'.
  repeat split; try done.
  - intros ->. destruct rest as [|k rest]; [|by destruct Hrest].
    rewrite app_nil_r in Hkeys. subst keys. by rewrite Hall.
  - intros [wend Hend]. destruct rest as [|k rest]; [by destruct Hrest|].
    destruct Hrest as [_ Hk]. subst keys.
    rewrite refused_all_app, Hall in Hend. simpl in Hend.
    by rewrite Hk in Hend.
Qed.
End TryAllKeysFacts.

(** ** The [decrypt] command *)

Section DecryptCommandFacts.
Context {World : Type} `{Platform World}.
Variable attempt : string -> string -> string -> World -> option error * World.

Lemma selectSSHKey_spec sshKeyFlag cfg :
  selectSSHKey sshKeyFlag cfg
  = if decide (sshKeyFlag = "") then SSHKeyPath cfg else sshKeyFlag.
Proof.
  unfold selectSSHKey.
  destruct (String.eqb_spec sshKeyFlag ""); by case_decide.
Qed.

(** The command past its three checks, with a selected key. *)
Lemma Decrypt_RunE_selected cfg input output sshKeyFlag (st : State World) info :
  input <> "" -> output <> "" ->
  os_Stat input (world st) = inl info ->
  selectSSHKey sshKeyFlag cfg <> "" ->
  let sshKey := selectSSHKey sshKeyFlag cfg in
  exists st',
    Decrypt_RunE_with attempt cfg input output sshKeyFlag st
    = (match fst (attempt sshKey output input (world st)) with
       | None => None
       | Some _ => Some (none_matched [sshKey])
       end, st')
    /\ world st' = snd (attempt sshKey output input (world st))
    /\ attempted_keys (logged st') = attempted_keys (logged st) ++ [sshKey].
Proof.
  intros Hin Hout Hstat Hsel sshKey. unfold Decrypt_RunE_with.
  apply String.eqb_neq in Hin, Hout. rewrite Hin, Hout, Hstat.
  fold sshKey. apply String.eqb_neq in Hsel. fold sshKey in Hsel.
  rewrite Hsel. cbn [negb]. unfold in_world.
  cbn [world logged log_Info log_entry].
  destruct (attempt sshKey output input (world st)) as [[e|] w1]; simpl;
    eexists; (split; [reflexivity|]); (split; [reflexivity|]);
    cbn [logged log_Info log_Warn log_entry];
    rewrite !attempted_keys_snoc; simpl; by rewrite <- !app_assoc, ?app_nil_r.
Qed.

(** The command past its three checks, with no selected key and a readable
    key directory. *)
Lemma Decrypt_RunE_scanned cfg input output sshKeyFlag (st : State World) info keys :
  input <> "" -> output <> "" ->
  os_Stat input (world st) = inl info ->
  selectSSHKey sshKeyFlag cfg = "" ->
  ScanSSHPrivateKeys (world st) = (keys, None) ->
  exists refused rest wmid st',
    Decrypt_RunE_with attempt cfg input output sshKeyFlag st
    = (match rest with [] => Some (none_matched keys) | _ :: _ => None end,
       st')
    /\ keys = refused ++ rest
    /\ refused_all attempt refused input output (world st) = Some wmid
    /\ attempted_keys (logged st')
       = attempted_keys (logged st) ++ refused ++ take 1 rest
    /\ match rest with
       | [] => world st' = wmid
       | k :: _ => attempt k output input wmid = (None, world st')
       end.
Proof.
  intros Hin Hout Hstat Hsel Hscan. unfold Decrypt_RunE_with.
  apply String.eqb_neq in Hin, Hout. rewrite Hin, Hout, Hstat, Hsel, Hscan.
  cbn [String.eqb negb].
  destruct (tryAllKeys_with_run attempt keys input output [] st)
    as (refused & rest & wmid & success & st' & Hrun & Hkeys & Hall & Hlog & Hrest).
  rewrite Hrun. exists refused, rest, wmid, st'.
  destruct rest as [|k rest].
  - destruct Hrest as [-> Hw]. rewrite !app_nil_r in *. subst keys. by simpl.
  - destruct Hrest as [-> Hk]. by simpl.
Qed.

Lemma Decrypt_RunE_scan_error cfg input output sshKeyFlag (st : State World)
    info keys e :
  input <> "" -> output <> "" ->
  os_Stat input (world st) = inl info ->
  selectSSHKey sshKeyFlag cfg = "" ->
  ScanSSHPrivateKeys (world st) = (keys, Some e) ->
  Decrypt_RunE_with attempt cfg input output sshKeyFlag st
  = (Some ("could not scan ~/.ssh for private keys: " +:+ e), st).
Proof.
  intros Hin Hout Hstat Hsel Hscan. unfold Decrypt_RunE_with.
  apply String.eqb_neq in Hin, Hout.
  by rewrite Hin, Hout, Hstat, Hsel, Hscan.
Qed.

(** C1. Past the checks of its arguments the command resolves its keys in
    a fixed order: a non-empty [--ssh-key] is the only key attempted;
    otherwise a non-empty [SSHKeyPath] of the configuration is the only key
    attempted; only when both are empty are the scanned keys used, and
    they are attempted in the order of the list: the keys attempted are
    the keys of the list up to and including the first one that decrypts,
    each key before it having been refused in its turn, and they are the
    whole list, with the error that names it, when none decrypts. *)
Theorem Decrypt_key_priority
    (cfg : Config) (input output sshKeyFlag : string) (st : State World) :
  input <> "" -> output <> "" ->
  (exists info, os_Stat input (world st) = inl info) ->
  exists result st' tried,
    Decrypt_RunE_with attempt cfg input output sshKeyFlag st = (result, st')
    /\ attempted_keys (logged st') = attempted_keys (logged st) ++ tried
    /\ (sshKeyFlag <> "" ->
        tried = [sshKeyFlag]
        /\ world st' = snd (attempt sshKeyFlag output input (world st)))
    /\ (sshKeyFlag = "" -> SSHKeyPath cfg <> "" ->
        tried = [SSHKeyPath cfg]
        /\ world st' = snd (attempt (SSHKeyPath cfg) output input (world st)))
    /\ (sshKeyFlag = "" -> SSHKeyPath cfg = "" ->
        match ScanSSHPrivateKeys (world st) with
        | (keys, None) =>
            tried `prefix_of` keys
            /\ (result <> None -> tried = keys)
            /\ exists refused rest wmid,
                 keys = refused ++ rest
                 /\ tried = refused ++ take 1 rest
                 /\ refused_all attempt refused input output (world st)
                    = Some wmid
                 /\ match rest with
                    | [] =>
                        result = Some (none_matched keys) /\ world st' = wmid
                    | k :: _ =>
                        result = None
                        /\ attempt k output input wmid = (None, world st')
                    end
        | (_, Some e) =>
            tried = []
            /\ result = Some ("could not scan ~/.ssh for private keys: " +:+ e)
        end).
Proof.
  intros Hin Hout [info Hstat].
  pose proof (selectSSHKey_spec sshKeyFlag cfg) as Hsel.
  destruct (decide (selectSSHKey sshKeyFlag cfg = "")) as [Hnone|Hsome].
  - assert (sshKeyFlag = "" /\ SSHKeyPath cfg = "") as [-> Hpath].
    { case_decide; split; congruence. }
    destruct (ScanSSHPrivateKeys (world st)) as [keys [e|]] eqn:Hscan.
    + exists (Some ("could not scan ~/.ssh for private keys: " +:+ e)), st, [].
      erewrite Decrypt_RunE_scan_error by done.
      rewrite app_nil_r. repeat split; done.
    + destruct (Decrypt_RunE_scanned cfg input output "" st info keys)
        as (refused & rest & wmid & st' & Hrun & Hkeys & Hall & Hlog & Hrest);
        try done.
      eexists _, st', (refused ++ take 1 rest).
      split; [exact Hrun|]. split; [by rewrite Hlog, app_assoc|].
      do 2 (split; [done|]). intros _ _. split; [|split].
      * subst keys. apply prefix_app, prefix_take.
      * destruct rest as [|k rest]; [|done]. intros _.
        by rewrite Hkeys, !app_nil_r.
      * exists refused, rest, wmid. do 3 (split; [done|]).
        by destruct rest.
  - destruct (Decrypt_RunE_selected cfg input output sshKeyFlag st info)
      as (st' & Hrun & Hw & Hlog); try done.
    eexists _, st', [selectSSHKey sshKeyFlag cfg].
    split; [exact Hrun|]. split; [exact Hlog|].
    case_decide as Hflag.
    + subst sshKeyFlag. rewrite Hsel in *.
      repeat split; try done.
    + rewrite Hsel in *. repeat split; done.
Qed.

(** C3. Past the checks of its arguments, when every candidate key is
    refused the command returns the error whose message lists the keys it
    tried, all the candidates in the order tried; when a candidate decrypts
    at its turn it returns nil. *)
Theorem Decrypt_reports_tried_keys
    (cfg : Config) (input output sshKeyFlag : string) (st : State World)
    (scanned : list string) :
  input <> "" -> output <> "" ->
  (exists info, os_Stat input (world st) = inl info) ->
  (selectSSHKey sshKeyFlag cfg = "" ->
   ScanSSHPrivateKeys (world st) = (scanned, None)) ->
  let keys := candidates (selectSSHKey sshKeyFlag cfg) scanned in
  exists result st' tried,
    Decrypt_RunE_with attempt cfg input output sshKeyFlag st = (result, st')
    /\ attempted_keys (logged st') = attempted_keys (logged st) ++ tried
    /\ (is_Some (refused_all attempt keys input output (world st)) ->
        tried = keys /\ result = Some (none_matched tried))
    /\ (refused_all attempt keys input output (world st) = None ->
        result = None).
Proof.
  intros Hin Hout [info Hstat] Hscan keys. unfold candidates in keys.
  destruct (decide (selectSSHKey sshKeyFlag cfg = "")) as [Hnone|Hsome].
  - specialize (Hscan Hnone). subst keys.
    destruct (Decrypt_RunE_scanned cfg input output sshKeyFlag st info scanned)
      as (refused & rest & wmid & st' & Hrun & Hkeys & Hall & Hlog & Hrest);
      try done.
    eexists _, st', (refused ++ take 1 rest).
    split; [exact Hrun|]. split; [by rewrite Hlog, app_assoc|].
    subst scanned. rewrite refused_all_app, Hall. simpl.
    destruct rest as [|k rest]; simpl.
    + rewrite !app_nil_r. split; [done|]. intros [=].
    + rewrite Hrest. split; [by intros [? [=]]|done].
  - subst keys.
    destruct (Decrypt_RunE_selected cfg input output sshKeyFlag st info)
      as (st' & Hrun & Hw & Hlog); try done.
    eexists _, st', [selectSSHKey sshKeyFlag cfg].
    split; [exact Hrun|]. split; [exact Hlog|]. simpl.
    destruct (attempt (selectSSHKey sshKeyFlag cfg) output input (world st))
      as [[e|] w1]; simpl.
    + split; [done|]. intros [=].
    + split; [by intros [? [=]]|done].
Qed.

(** C4, as amended. When decryption with the selected key fails the
    command attempts no other key: it reports the failure at once, naming
    that key alone.  The walk over the candidate key files exists only
    when no key is selected: there a failure is reported only after every
    scanned key was attempted, in the order of the list, and refused. *)
Theorem Decrypt_falls_back_only_when_scanning
    (cfg : Config) (input output sshKeyFlag : string) (st : State World) :
  input <> "" -> output <> "" ->
  (exists info, os_Stat input (world st) = inl info) ->
  let sshKey := selectSSHKey sshKeyFlag cfg in
  (sshKey <> "" ->
   fst (attempt sshKey output input (world st)) <> None ->
   exists st',
     Decrypt_RunE_with attempt cfg input output sshKeyFlag st
     = (Some (none_matched [sshKey]), st')
     /\ attempted_keys (logged st') = attempted_keys (logged st) ++ [sshKey]
     /\ world st' = snd (attempt sshKey output input (world st)))
  /\ (sshKey = "" ->
      forall keys, ScanSSHPrivateKeys (world st) = (keys, None) ->
      forall err st',
        Decrypt_RunE_with attempt cfg input output sshKeyFlag st
        = (Some err, st') ->
        err = none_matched keys
        /\ attempted_keys (logged st') = attempted_keys (logged st) ++ keys
        /\ refused_all attempt keys input output (world st)
           = Some (world st')).
Proof.
  intros Hin Hout [info Hstat] sshKey. split.
  - intros Hsel Hfail.
    destruct (Decrypt_RunE_selected cfg input output sshKeyFlag st info)
      as (st' & Hrun & Hw & Hlog); try done.
    exists st'. fold sshKey in Hrun, Hw, Hlog. split; [|done].
    rewrite Hrun.
    by destruct (fst (attempt sshKey output input (world st))).
  - intros Hsel keys Hscan err st' Hrun.
    destruct (Decrypt_RunE_scanned cfg input output sshKeyFlag st info keys)
      as (refused & rest & wmid & st1 & Hrun1 & Hkeys & Hall & Hlog & Hrest);
      try done.
    rewrite Hrun1 in Hrun. destruct rest as [|k rest]; [|done].
    injection Hrun as <- <-. rewrite !app_nil_r in *. subst. done.
Qed.
End DecryptCommandFacts.

(** ** [LoadConfig] and [SaveConfig] *)

Section ConfigFacts.
Context {World : Type} `{Platform World}.



End ConfigFacts.

(** ** [collectRecipients] *)

Section EncryptFacts.
Context {World : Type} `{Platform World}.

Lemma github_loop lines acc :
  fold_left add_github_key lines acc
  = acc ++ List.filter (fun line => negb (String.eqb line ""))
             (map strings_TrimSpace lines).
Proof.
  revert acc. induction lines as [|l lines IH]; intros acc; simpl.
  - by rewrite app_nil_r.
  - rewrite IH. unfold add_github_key.
    destruct (negb (String.eqb (strings_TrimSpace l) "")); [|done].
    by rewrite <- app_assoc.
Qed.

(** The URL built by [collectRecipients] always passes its own test. *)
Lemma keys_url_accepted ghUser :
  negb (HasPrefix ("https://github.com/" +:+ ghUser +:+ ".keys")
          "https://github.com/")
  || negb (HasSuffix ("https://github.com/" +:+ ghUser +:+ ".keys") ".keys")
  = false.
Proof.
  assert (HasPrefix ("https://github.com/" +:+ ghUser +:+ ".keys")
            "https://github.com/" = true) as ->.
  { apply HasPrefix_spec. by eexists. }
  assert (HasSuffix ("https://github.com/" +:+ ghUser +:+ ".keys") ".keys"
          = true) as ->.
  { apply HasSuffix_spec. exists ("https://github.com/" +:+ ghUser).
    by rewrite str_app_assoc. }
  done.
Qed.

(** The state differs from [st] by one warning. *)
Ltac one_warning :=
  eexists [_], _; split; [reflexivity|];
  split; [apply list_elem_of_singleton|]; reflexivity.

(** The run returns the recipients without any GitHub key. *)
Ltac keys_left_out :=
  eexists [], _; cbv beta iota zeta; rewrite !app_nil_r;
  split; [reflexivity|].

Lemma warned_snoc (st : State World) fields msg :
  warned st (log_Warn fields msg st).
Proof. one_warning. Qed.

(** Every way through [collectRecipients]. *)
Lemma collectRecipients_run cfg recipients ghUserFlag (st : State World) :
  let ghUser := github_user cfg ghUserFlag in
  let url := "https://github.com/" +:+ ghUser +:+ ".keys" in
  exists githubKeys st',
    collectRecipients cfg recipients ghUserFlag st
    = ((DefaultRecipients cfg ++ recipients ++ githubKeys, ghUser, None), st')
    /\ ((ghUser = "" /\ githubKeys = [] /\ st' = st)
        \/ (ghUser <> "" /\ validUser_MatchString ghUser = false
            /\ githubKeys = [] /\ warned st st')
        \/ (validUser_MatchString ghUser = true
            /\ match fst (http_Get url (world st)) with
               | inr err => githubKeys = [] /\ warned st st'
               | inl resp =>
                   if StatusCode resp =? 200 then
                     match Body_ReadAll resp, Body_Close resp with
                     | (body, None), None => githubKeys = github_keys body
                     | _, _ => githubKeys = [] /\ warned st st'
                     end
                   else githubKeys = [] /\ warned st st'
               end)).
Proof.
  intros ghUser url. unfold collectRecipients.
  assert ((if String.eqb ghUserFlag ""
              && negb (String.eqb (GitHubUser cfg) "")
           then GitHubUser cfg else ghUserFlag) = ghUser) as ->.
  { unfold ghUser, github_user.
    destruct (String.eqb_spec ghUserFlag ""); case_decide; try done.
    destruct (String.eqb_spec (GitHubUser cfg) ""); simpl; congruence. }
  cbn [app].
  destruct (String.eqb_spec ghUser "") as [Hempty|Huser]; cbn [negb].
  { keys_left_out. by left. }
  destruct (validUser_MatchString ghUser) eqn:Hvalid; cbn [negb].
  { fold url. unfold url at 1 2. rewrite keys_url_accepted. fold url.
    unfold in_world.
    destruct (http_Get url (world st)) as [[resp|err] w1]; cbn [fst].
    - destruct (StatusCode resp =? 200).
      + destruct (Body_ReadAll resp) as [body [e|]],
                 (Body_Close resp) as [ce|]; cbv beta iota zeta.
        * keys_left_out. right; right. do 2 (split; [done|]).
          eexists [_; _], _. cbn [logged log_Warn log_entry].
          rewrite <- app_assoc. split; [reflexivity|].
          split; [apply list_elem_of_here|]; reflexivity.
        * keys_left_out. right; right. do 2 (split; [done|]). one_warning.
        * keys_left_out. right; right. do 2 (split; [done|]). one_warning.
        * eexists (github_keys body), _. rewrite github_loop, <- app_assoc.
          split; [reflexivity|]. right; right. done.
      + keys_left_out. right; right. do 2 (split; [done|]). one_warning.
    - keys_left_out. right; right. do 2 (split; [done|]). one_warning. }
  keys_left_out. right; left. do 3 (split; [done|]). apply warned_snoc.
Qed.

Lemma validUser_nonempty ghUser :
  validUser_MatchString ghUser = true -> ghUser <> "".
Proof. by intros Hvalid ->. Qed.

(** [collectRecipients] always returns a nil error, and the list it
    returns is the default recipients, then the recipients of the flag,
    then the trimmed non-empty lines of the fetched GitHub keys.  An
    invalid user name, a failed fetch, a status other than 200, an
    unreadable body or a body that does not close leaves the GitHub keys
    out and logs a warning. *)
Lemma collectRecipients_outcomes
    (cfg : Config) (recipients : list string) (ghUserFlag : string)
    (st : State World) :
  let ghUser := github_user cfg ghUserFlag in
  let url := "https://github.com/" +:+ ghUser +:+ ".keys" in
  exists githubKeys st',
    collectRecipients cfg recipients ghUserFlag st
    = ((DefaultRecipients cfg ++ recipients ++ githubKeys, ghUser, None), st')
    /\ (ghUser = "" -> githubKeys = [])
    /\ (ghUser <> "" -> validUser_MatchString ghUser = false ->
        githubKeys = [] /\ warned st st')
    /\ (validUser_MatchString ghUser = true ->
        forall err, fst (http_Get url (world st)) = inr err ->
        githubKeys = [] /\ warned st st')
    /\ (validUser_MatchString ghUser = true ->
        forall resp, fst (http_Get url (world st)) = inl resp ->
        StatusCode resp <> 200 ->
        githubKeys = [] /\ warned st st')
    /\ (validUser_MatchString ghUser = true ->
        forall resp, fst (http_Get url (world st)) = inl resp ->
        StatusCode resp = 200 ->
        snd (Body_ReadAll resp) <> None ->
        githubKeys = [] /\ warned st st')
    /\ (validUser_MatchString ghUser = true ->
        forall resp, fst (http_Get url (world st)) = inl resp ->
        StatusCode resp = 200 ->
        Body_Close resp <> None ->
        githubKeys = [] /\ warned st st')
    /\ (validUser_MatchString ghUser = true ->
        forall resp body, fst (http_Get url (world st)) = inl resp ->
        StatusCode resp = 200 ->
        Body_ReadAll resp = (body, None) -> Body_Close resp = None ->
        githubKeys = github_keys body).
Proof.
  intros ghUser url.
  destruct (collectRecipients_run cfg recipients ghUserFlag st)
    as (githubKeys & st' & Hrun & Hcases).
  fold ghUser url in Hrun, Hcases.
  exists githubKeys, st'. split; [exact Hrun|].
  destruct Hcases as [(Hempty & -> & ->)|[(Huser & Hinvalid & -> & Hwarn)|[Hvalid Hfetch]]].
  - rewrite Hempty. repeat split; try done.
  - rewrite Hinvalid. repeat split; try done.
  - pose proof (validUser_nonempty _ Hvalid) as Huser.
    split; [done|]. split; [congruence|].
    split; [|split; [|split; [|split]]].
    + intros _ err Hget. by rewrite Hget in Hfetch.
    + intros _ resp Hget Hstatus. rewrite Hget in Hfetch.
      apply Z.eqb_neq in Hstatus. by rewrite Hstatus in Hfetch.
    + intros _ resp Hget Hstatus Hread. rewrite Hget in Hfetch.
      apply Z.eqb_eq in Hstatus. rewrite Hstatus in Hfetch.
      destruct (Body_ReadAll resp) as [body [e|]]; [|done].
      by destruct (Body_Close resp).
    + intros _ resp Hget Hstatus Hclose. rewrite Hget in Hfetch.
      apply Z.eqb_eq in Hstatus. rewrite Hstatus in Hfetch.
      destruct (Body_ReadAll resp) as [body [e|]];
        by destruct (Body_Close resp).
    + intros _ resp body Hget Hstatus Hread Hclose. rewrite Hget in Hfetch.
      apply Z.eqb_eq in Hstatus.
      by rewrite Hstatus, Hread, Hclose in Hfetch.
Qed.
End EncryptFacts.

(** ** The package as it stands: [tryDecrypt] in the place of the attempt *)

Section AsShipped.
Context {World : Type} `{Platform World}.

(** With [tryDecrypt] refusing every key, [tryAllKeys] walks the whole list
    and returns [false]. *)
Lemma tryAllKeys_walks_whole_list keys input output triedKeys (st : State World) :
  exists st',
    tryAllKeys keys input output triedKeys st = ((false, triedKeys ++ keys), st')
    /\ world st' = world st.
Proof.
  destruct (tryAllKeys_with_run tryDecrypt keys input output triedKeys st)
    as (refused & rest & wmid & success & st' & Hrun & Hkeys & Hall & _ & Hrest).
  destruct rest as [|k rest].
  - destruct Hrest as [-> Hw]. rewrite !app_nil_r in *. subst refused.
    exists st'. split; [exact Hrun|]. rewrite Hw. clear Hrun Hw.
    revert Hall. generalize (world st) as w. revert wmid.
    induction keys as [|k keys IH]; intros wmid w; simpl; [congruence|].
    rewrite tryDecrypt_refuses. apply IH.
  - destruct Hrest as [_ Hk]. by rewrite tryDecrypt_refuses in Hk.
Qed.

(** So the command, as shipped, returns an error on every input. *)
Lemma Decrypt_RunE_never_succeeds cfg input output sshKeyFlag (st : State World) :
  exists err st', Decrypt_RunE cfg input output sshKeyFlag st = (Some err, st').
Proof.
  unfold Decrypt_RunE.
  destruct (String.eqb_spec input "") as [->|Hin]; [by eexists _, _|].
  destruct (String.eqb_spec output "") as [->|Hout].
  { unfold Decrypt_RunE_with. apply String.eqb_neq in Hin. rewrite Hin.
    by eexists _, _. }
  destruct (os_Stat input (world st)) as [info|e] eqn:Hstat.
  2:{ unfold Decrypt_RunE_with. apply String.eqb_neq in Hin, Hout.
      rewrite Hin, Hout, Hstat. by eexists _, _. }
  destruct (decide (selectSSHKey sshKeyFlag cfg = "")) as [Hnone|Hsel].
  - destruct (ScanSSHPrivateKeys (world st)) as [keys [e|]] eqn:Hscan.
    + erewrite Decrypt_RunE_scan_error by done. by eexists _, _.
    + destruct (Decrypt_RunE_scanned tryDecrypt cfg input output sshKeyFlag
                  st info keys)
        as (refused & rest & wmid & st' & Hrun & _ & _ & _ & Hrest); try done.
      destruct rest as [|k rest]; [rewrite Hrun; by eexists _, _|].
      by rewrite tryDecrypt_refuses in Hrest.
  - destruct (Decrypt_RunE_selected tryDecrypt cfg input output sshKeyFlag
                st info) as (st' & Hrun & _); try done.
    rewrite tryDecrypt_refuses in Hrun. cbn [fst] in Hrun.
    rewrite Hrun. by eexists _, _.
Qed.
End AsShipped.

(** ** The properties on the simulated world *)

Example scan_home :
  ScanSSHPrivateKeys Sim.w0 = ([id_ecdsa; id_ed25519; id_rsa], None).
Proof. vm_compute. reflexivity. Qed.

Example tryAllKeys_second_key_decrypts :
  let r := tryAllKeys_with Sim.age_attempt [id_ed25519; id_rsa; id_ecdsa]
             secret "out.txt" [] Sim.st0 in
  fst r = (true, [id_ed25519; id_rsa])
  /\ Sim.launched (world (snd r))
     = [("age", ["-d"; "-i"; id_ed25519; "-o"; "out.txt"; secret]);
        ("age", ["-d"; "-i"; id_rsa; "-o"; "out.txt"; secret])].
Proof. vm_compute. split; reflexivity. Qed.

(** In the simulated world every launch is recorded, and [tryDecrypt]
    records none. *)
Lemma tryDecrypt_launches_nothing keyPath output input (w : Sim.World) :
  Sim.launched (snd (tryDecrypt keyPath output input w)) = Sim.launched w.
Proof. by rewrite tryDecrypt_refuses. Qed.

Example tryDecrypt_id_rsa :
  fst (tryDecrypt id_rsa "out.txt" secret Sim.w0)
  = Some "unexpected flag in age arguments: /home/u/.ssh/id_rsa".
Proof. vm_compute. reflexivity. Qed.

(** [SaveConfig] on a new file and on the existing, world-readable one. *)
Example SaveConfig_new_file :
  let r := SaveConfig "/home/u/.config/a/new.yaml" zeroConfig Sim.w0 in
  fst r = None
  /\ fst <$> Sim.files (snd r) !! "/home/u/.config/a/new.yaml" = Some 384.
Proof. vm_compute. split; reflexivity. Qed.

Example SaveConfig_existing_file :
  let r := SaveConfig "/home/u/.config/a/config.yaml" zeroConfig Sim.w0 in
  fst r = None
  /\ fst <$> Sim.files (snd r) !! "/home/u/.config/a/config.yaml" = Some 420
  /\ fst (LoadConfig "/home/u/.config/a/config.yaml" (snd r))
     = (None, Some "config file must have 0600 permissions, got 644").
Proof. vm_compute. repeat split; reflexivity. Qed.

(** The [encrypt] command when GitHub answers 404: with a default recipient
    it encrypts for that recipient alone, with no recipient at all it fails
    for lack of one. *)
Example Encrypt_after_failed_fetch :
  let r := Encrypt_RunE (mkConfig "" "" ["/home/u/.ssh/id_rsa.pub"] 0 "")
             secret "out.txt" [] "ghost" Sim.st0 in
  fst r = None
  /\ Sim.launched (world (snd r))
     = [("age", ["-o"; "out.txt"; "-r"; "/home/u/.ssh/id_rsa.pub"; secret])]
  /\ log_msg <$> logged (snd r)
     = ["GitHub returned status 404 for user ghost"; "Encrypting file";
        "Encryption successful"].
Proof. vm_compute. repeat split; reflexivity. Qed.

Example Encrypt_without_recipient :
  fst (Encrypt_RunE zeroConfig secret "out.txt" [] "ghost" Sim.st0)
  = Some "at least one recipient is required".
Proof. vm_compute. reflexivity. Qed.

(** With [--ssh-key] set to [id_rsa] and [SSHKeyPath] to [id_ed25519], the
    flag wins; with neither, in the home where [id_ed25519] decrypts, the
    scanned keys are attempted up to that one: [id_ecdsa], refused, then
    [id_ed25519], and [id_rsa] not at all. *)
Lemma Decrypt_key_priority_witness :
  (exists result st',
     Decrypt_RunE_with Sim.age_attempt (mkConfig id_ed25519 "" [] 0 "")
       secret "out.txt" id_rsa Sim.st0 = (result, st')
     /\ attempted_keys (logged st') = [id_rsa])
  /\ (exists st',
        Decrypt_RunE_with Sim.age_attempt zeroConfig secret "out.txt" ""
          (mkState w_ed25519 []) = (None, st')
        /\ attempted_keys (logged st') = [id_ecdsa; id_ed25519]).
Proof.
  split.
  - destruct (Decrypt_key_priority Sim.age_attempt
                (mkConfig id_ed25519 "" [] 0 "") secret "out.txt" id_rsa
                Sim.st0)
      as (result & st' & tried & Hrun & Hlog & Hflag & _).
    + discriminate.
    + discriminate.
    + eexists. vm_compute. reflexivity.
    + exists result, st'. split; [exact Hrun|].
      destruct Hflag as [-> _]; [discriminate|]. exact Hlog.
  - destruct (Decrypt_key_priority Sim.age_attempt zeroConfig secret "out.txt"
                "" (mkState w_ed25519 []))
      as (result & st' & tried & Hrun & Hlog & _ & _ & Hscan).
    + discriminate.
    + discriminate.
    + eexists. vm_compute. reflexivity.
    + specialize (Hscan eq_refl eq_refl). cbn [world] in Hscan.
      assert (ScanSSHPrivateKeys w_ed25519
              = ([id_ecdsa; id_ed25519; id_rsa], None)) as Hkeys
        by (vm_compute; reflexivity).
      rewrite Hkeys in Hscan.
      destruct Hscan as (_ & _ & refused & rest & wmid & Hsplit & -> & Hall
                         & Hrest).
      exists st'.
      destruct refused as [|k1 [|k2 refused]]; cbn [app] in Hsplit.
      * subst rest. destruct Hrest as [_ Hattempt].
        injection Hall as <-. vm_compute in Hattempt. discriminate Hattempt.
      * injection Hsplit as <- <-. destruct Hrest as [-> _].
        split; [exact Hrun | exact Hlog].
      * injection Hsplit as <- <- _. vm_compute in Hall. discriminate Hall.
Defined.

(** Scanning when no key decrypts, and when [id_rsa] does. *)
Lemma Decrypt_reports_tried_keys_witness :
  (exists st',
     Decrypt_RunE_with Sim.age_attempt zeroConfig secret "out.txt" "" Sim.st1
     = (Some (none_matched [id_ecdsa; id_ed25519; id_rsa]), st'))
  /\ (exists st',
        Decrypt_RunE_with Sim.age_attempt zeroConfig secret "out.txt" ""
          Sim.st0 = (None, st')).
Proof.
  split.
  - destruct (Decrypt_reports_tried_keys Sim.age_attempt zeroConfig secret
                "out.txt" "" Sim.st1 [id_ecdsa; id_ed25519; id_rsa])
      as (result & st' & tried & Hrun & _ & Hfail & _).
    + discriminate.
    + discriminate.
    + eexists. vm_compute. reflexivity.
    + intros _. vm_compute. reflexivity.
    + exists st'. rewrite Hrun. destruct Hfail as [-> ->].
      * eexists. vm_compute. reflexivity.
      * reflexivity.
  - destruct (Decrypt_reports_tried_keys Sim.age_attempt zeroConfig secret
                "out.txt" "" Sim.st0 [id_ecdsa; id_ed25519; id_rsa])
      as (result & st' & tried & Hrun & _ & _ & Hsucc).
    + discriminate.
    + discriminate.
    + eexists. vm_compute. reflexivity.
    + intros _. vm_compute. reflexivity.
    + exists st'. rewrite Hrun. rewrite Hsucc; [reflexivity|].
      vm_compute. reflexivity.
Defined.

(** C4, as stated, fails: with [--ssh-key] set to a key that is refused the
    command reports failure although the scanned keys [id_ecdsa] and
    [id_rsa] were never attempted, both as shipped and when the key is
    handed to [age], which would have decrypted with [id_rsa]. *)
Lemma selected_key_failure_is_final :
  ~ falls_back_after_selected_key tryDecrypt zeroConfig secret "out.txt"
      id_ed25519 Sim.st0
  /\ ~ falls_back_after_selected_key Sim.age_attempt zeroConfig secret "out.txt"
        id_ed25519 Sim.st0.
Proof.
  split; intros Hfalls.
  all: match type of Hfalls with
       | falls_back_after_selected_key ?attempt _ _ _ _ _ =>
           destruct (Decrypt_RunE_with attempt zeroConfig secret "out.txt"
                       id_ed25519 Sim.st0) as [result st'] eqn:Hrun
       end.
  all: specialize (Hfalls ltac:(discriminate) ltac:(discriminate)
                     [id_ecdsa; id_ed25519; id_rsa] eq_refl result st' Hrun).
  all: vm_compute in Hrun; injection Hrun as <- <-.
  all: specialize (Hfalls ltac:(discriminate) id_rsa).
  all: assert (Hin : id_rsa ∈ [id_ecdsa; id_ed25519; id_rsa])
         by (rewrite !elem_of_cons; auto).
  all: apply Hfalls in Hin; vm_compute in Hin.
  all: apply list_elem_of_singleton in Hin; discriminate.
Qed.

(** The amended statement on the same home: a refused [--ssh-key] ends the
    command, and without a selected key a failure comes after the three
    scanned keys. *)
Lemma Decrypt_falls_back_only_when_scanning_witness :
  (exists st',
     Decrypt_RunE_with Sim.age_attempt zeroConfig secret "out.txt" id_ed25519
       Sim.st0 = (Some (none_matched [id_ed25519]), st')
     /\ attempted_keys (logged st') = [id_ed25519])
  /\ (forall err st',
        Decrypt_RunE_with Sim.age_attempt zeroConfig secret "out.txt" ""
          Sim.st1 = (Some err, st') ->
        attempted_keys (logged st') = [id_ecdsa; id_ed25519; id_rsa]).
Proof.
  split.
  - destruct (Decrypt_falls_back_only_when_scanning Sim.age_attempt zeroConfig
                secret "out.txt" id_ed25519 Sim.st0) as [Hsel _].
    + discriminate.
    + discriminate.
    + eexists. vm_compute. reflexivity.
    + destruct Hsel as (st' & Hrun & Hlog & _).
      * discriminate.
      * discriminate.
      * exists st'. split; [exact Hrun | exact Hlog].
  - intros err st' Hrun.
    destruct (Decrypt_falls_back_only_when_scanning Sim.age_attempt zeroConfig
                secret "out.txt" "" Sim.st1) as [_ Hscan].
    + discriminate.
    + discriminate.
    + eexists. vm_compute. reflexivity.
    + destruct (Hscan eq_refl [id_ecdsa; id_ed25519; id_rsa] eq_refl err st' Hrun)
        as (_ & Hlog & _).
      exact Hlog.
Defined.




Lemma ScanSSHPrivateKeys_lists_private_keys_witness :
  ScanSSHPrivateKeys Sim.w0 = ([id_ecdsa; id_ed25519; id_rsa], None).
Proof.
  destruct (ScanSSHPrivateKeys_lists_private_keys Sim.w0) as (Hread & _).
  destruct (Hread Sim.ssh_dir) as [Hscan _].
  - vm_compute. reflexivity.
  - rewrite Hscan. vm_compute. reflexivity.
Defined.

Lemma buildAgeArgs_validates_witness :
  (exists err, buildAgeArgs "notes.bin" secret ["key.pub"] = ([], Some err))
  /\ buildAgeArgs "notes.txt" secret ["a.pub"; "b.pub"]
     = (["-o"; "notes.txt"; "-r"; "a.pub"; "-r"; "b.pub"; secret], None).
Proof.
  split.
  - apply (proj1 (buildAgeArgs_validates "notes.bin" secret ["key.pub"])).
    left. intros [Hend|Hend]; apply HasSuffix_spec in Hend; discriminate Hend.
  - apply (proj2 (buildAgeArgs_validates "notes.txt" secret ["a.pub"; "b.pub"])).
    + left. by exists "notes".
    + discriminate.
    + discriminate.
    + rewrite !not_elem_of_cons, elem_of_nil. repeat split; try discriminate.
      tauto.
Defined.

Lemma tryDecrypt_rejects_without_age_witness :
  id_ecdsa ∈ fst (ScanSSHPrivateKeys Sim.w0)
  /\ exists err,
       tryDecrypt id_ecdsa "out.txt" secret Sim.w0 = (Some err, Sim.w0).
Proof.
  split; [vm_compute; apply list_elem_of_here|].
  destruct (tryDecrypt_rejects_without_age id_ecdsa "out.txt" secret)
    as [err Herr].
  - left. intros [Hend|Hend]; apply HasSuffix_spec in Hend; discriminate Hend.
  - exists err. apply Herr.
Defined.

(** The call made by
    [a decrypt -i /home/u/secret.age -o out.txt --ssh-key /home/u/.ssh/id_rsa]. *)
Lemma tryDecrypt_unexpected_flag_witness :
  tryDecrypt id_rsa "out.txt" secret Sim.w0
  = (Some "unexpected flag in age arguments: /home/u/.ssh/id_rsa", Sim.w0).
Proof.
  apply (tryDecrypt_unexpected_flag id_rsa "out.txt" secret Sim.w0).
  rewrite !not_elem_of_cons, elem_of_nil. repeat split; try discriminate. tauto.
Defined.

(** * Further properties of the package *)

(** ** [buildAgeArgs] *)

Lemma buildAgeArgs_cases output input rs :
  buildAgeArgs output input rs
  = if has_empty (output :: rs ++ [input]) then ([], Some empty_argument)
    else if negb (HasSuffix output ".txt") && negb (HasSuffix output ".out")
    then ([], Some (invalid_output output))
    else (expected_ageArgs output input rs, None).
Proof.
  unfold buildAgeArgs. rewrite append_recipients, <- app_assoc.
  fold (expected_ageArgs output input rs). rewrite check_ageArgs.
  by destruct (has_empty _).
Qed.

Lemma not_ends_in_empty suffix : suffix <> "" -> ~ ends_in "" suffix.
Proof.
  intros Hne [p Hp]. destruct p as [|c p]; [|discriminate Hp].
  by destruct suffix.
Qed.

(** X4. The errors of [buildAgeArgs] and their order: an empty output,
    recipient or input gives "invalid argument for encryption: empty
    string", whatever the suffix of the output; otherwise an output ending
    neither in [.txt] nor in [.out] gives "invalid output file for
    encryption"; the third error of its code, "unexpected flag in age
    arguments", is never returned. *)
Theorem buildAgeArgs_error_order (output input : string) (recipients : list string) :
  ("" ∈ output :: recipients ++ [input] ->
   buildAgeArgs output input recipients = ([], Some empty_argument))
  /\ ("" ∉ output :: recipients ++ [input] ->
      ~ (ends_in output ".txt" \/ ends_in output ".out") ->
      buildAgeArgs output input recipients = ([], Some (invalid_output output)))
  /\ (forall arg,
        snd (buildAgeArgs output input recipients) <> Some (unexpected_flag arg)).
Proof.
  rewrite buildAgeArgs_cases. split; [|split].
  - intros Hin. apply has_empty_In in Hin. by rewrite Hin.
  - intros Hnone Hsuffix.
    destruct (has_empty _) eqn:Hempty; [by apply has_empty_In in Hempty|].
    destruct (HasSuffix output ".txt") eqn:Htxt.
    { exfalso. apply Hsuffix. left. by apply HasSuffix_spec. }
    destruct (HasSuffix output ".out") eqn:Hout; [|done].
    exfalso. apply Hsuffix. right. by apply HasSuffix_spec.
  - intros arg. destruct (has_empty _); [discriminate|].
    destruct (negb _ && negb _); discriminate.
Qed.

(** ** The pattern of user names *)

Lemma is_alnum_dash c : is_alnum c = true -> is_alnum_or_dash c = true.
Proof. unfold is_alnum_or_dash. by intros ->. Qed.

Lemma validUser_shape (s : string) :
  validUser_MatchString s = true <-> user_name_shape s.
Proof.
  unfold validUser_MatchString, user_name_shape.
  destruct (String.list_ascii_of_string s) as [|c rest]; cbn zeta.
  { split; [done|]. simpl. lia. }
  destruct (List.rev rest) as [|z middle] eqn:Hrev.
  - assert (rest = []) as ->.
    { rewrite <- (rev_involutive rest), Hrev. done. }
    rewrite andb_true_r. split.
    + intros Hc. split; [simpl; lia|]. split.
      { constructor; [by apply is_alnum_dash|constructor]. }
      split; by exists c.
    + intros (_ & _ & (c' & [= <-] & Hc) & _). done.
  - assert (rest = List.rev middle ++ [z]) as ->.
    { rewrite <- (rev_involutive rest), Hrev. done. }
    rewrite !andb_true_iff, Nat.leb_le, forallb_forall.
    rewrite app_comm_cons, last_snoc, length_app, length_cons, length_rev.
    simpl length. split.
    + intros (Hc & (Hz & Hmiddle) & Hlen). split; [lia|]. split.
      { rewrite <- app_comm_cons. constructor; [by apply is_alnum_dash|].
        apply Forall_app. split.
        - apply Forall_forall. intros x Hx. apply Hmiddle.
          apply in_rev. by apply list_elem_of_In.
        - constructor; [by apply is_alnum_dash|constructor]. }
      split; [by exists c | by exists z].
    + intros (Hlen & Hall & (c' & [= <-] & Hc) & (z' & [= <-] & Hz)).
      split; [done|]. split; [|lia]. split; [done|].
      intros x Hx. rewrite <- app_comm_cons in Hall.
      apply Forall_cons in Hall as [_ Hall].
      apply Forall_app in Hall as [Hall _].
      rewrite Forall_forall in Hall. apply Hall.
      apply list_elem_of_In. by apply in_rev in Hx.
Qed.

(** X8. The pattern [validUser] of [collectRecipients] accepts exactly the
    names of 1 to 39 bytes, each a letter, a digit or a dash, that begin and
    end with a letter or a digit; so no accepted name holds a slash, a dot,
    a colon or a space. *)
Theorem validUser_MatchString_shape (s : string) :
  (validUser_MatchString s = true <-> user_name_shape s)
  /\ (validUser_MatchString s = true ->
      forall c, c ∈ String.list_ascii_of_string s ->
      c <> "/"%char /\ c <> "."%char /\ c <> ":"%char /\ c <> " "%char).
Proof.
  split; [apply validUser_shape|].
  intros Hvalid c Hc. apply validUser_shape in Hvalid.
  destruct Hvalid as (_ & Hall & _).
  rewrite Forall_forall in Hall. apply Hall in Hc.
  repeat split; intros ->; discriminate Hc.
Qed.

(** ** [tryDecrypt], [tryAllKeys] and [Decrypt] as shipped *)

(** X1. [tryDecrypt] never runs [age]: whatever its arguments and the
    platform, it returns an error fixed by the arguments and leaves the
    world as it was.  The error is "unexpected flag in age arguments" with
    the key path, or with the output when the key path is one of the three
    flags; when both are flags it is the error of the empty input or else
    "invalid key file for decryption".  So the test of the suffix of the
    output is never reached. *)
Theorem tryDecrypt_never_runs_age (keyPath output input : string) :
  let flags := ["-d"; "-i"; "-o"] in
  exists err,
    (forall (World : Type) (P : Platform World) (w : World),
       tryDecrypt keyPath output input w = (Some err, w))
    /\ (keyPath ∉ flags -> err = unexpected_flag keyPath)
    /\ (keyPath ∈ flags -> output ∉ flags -> err = unexpected_flag output)
    /\ (keyPath ∈ flags -> output ∈ flags -> input = "" ->
        err = "invalid argument for decryption: empty string")
    /\ (keyPath ∈ flags -> output ∈ flags -> input <> "" ->
        err = "invalid key file for decryption: " +:+ keyPath).
Proof.
  intros flags. exists (refusal keyPath output input).
  split; [intros World P w; apply tryDecrypt_refuses|].
  unfold refusal.
  pose proof (decryptFlags_index keyPath) as Hkey.
  pose proof (decryptFlags_index output) as Hout.
  fold flags in Hkey, Hout.
  destruct (map_index decryptFlags keyPath), (map_index decryptFlags output),
    (String.eqb_spec input ""); cbn [negb];
    repeat split; intros; try done; exfalso; intuition congruence.
Qed.

Section ShippedDecrypt.
Context {World : Type} `{Platform World}.

Lemma refused_all_tryDecrypt keys input output (w : World) :
  refused_all tryDecrypt keys input output w = Some w.
Proof.
  induction keys as [|k keys IH]; simpl; [done|].
  by rewrite tryDecrypt_refuses.
Qed.

(** The command as shipped always returns the error read off its inputs. *)
Lemma Decrypt_RunE_shipped_error
    (cfg : Config) (input output sshKeyFlag : string) (st : State World) :
  exists st',
    Decrypt_RunE cfg input output sshKeyFlag st
    = (Some (shipped_decrypt_error cfg input output sshKeyFlag (world st)), st')
    /\ world st' = world st.
Proof.
  unfold Decrypt_RunE, shipped_decrypt_error.
  destruct (String.eqb_spec input "") as [->|Hin]; [by exists st|].
  destruct (String.eqb_spec output "") as [->|Hout].
  { unfold Decrypt_RunE_with. apply String.eqb_neq in Hin. rewrite Hin.
    by exists st. }
  destruct (os_Stat input (world st)) as [info|e] eqn:Hstat.
  2:{ unfold Decrypt_RunE_with. apply String.eqb_neq in Hin, Hout.
      rewrite Hin, Hout, Hstat. by exists st. }
  cbn zeta.
  destruct (String.eqb_spec (selectSSHKey sshKeyFlag cfg) "") as [Hnone|Hsel].
  - destruct (ScanSSHPrivateKeys (world st)) as [keys [e|]] eqn:Hscan.
    + erewrite Decrypt_RunE_scan_error by done. by exists st.
    + destruct (Decrypt_RunE_scanned tryDecrypt cfg input output sshKeyFlag
                  st info keys)
        as (refused & rest & wmid & st' & Hrun & _ & Hall & _ & Hrest);
        try done.
      rewrite refused_all_tryDecrypt in Hall. injection Hall as <-.
      destruct rest as [|k rest]; [by exists st'|].
      by rewrite tryDecrypt_refuses in Hrest.
  - destruct (Decrypt_RunE_selected tryDecrypt cfg input output sshKeyFlag
                st info) as (st' & Hrun & Hw & _); try done.
    rewrite tryDecrypt_refuses in Hrun, Hw. exists st'. by rewrite Hrun.
Qed.
(** X2. The [decrypt] command as shipped never decrypts: on every input it
    returns an error and leaves the world as it was.  Past the checks of
    its arguments the error is that of the scan of [~/.ssh], or it names
    the keys tried: the selected key alone, or every scanned key. *)
Theorem Decrypt_RunE_as_shipped
    (cfg : Config) (input output sshKeyFlag : string) (st : State World) :
  exists err st',
    Decrypt_RunE cfg input output sshKeyFlag st = (Some err, st')
    /\ world st' = world st
    /\ (input <> "" -> output <> "" ->
        (exists info, os_Stat input (world st) = inl info) ->
        let sshKey := selectSSHKey sshKeyFlag cfg in
        (sshKey <> "" -> err = none_matched [sshKey])
        /\ (sshKey = "" -> forall keys,
            ScanSSHPrivateKeys (world st) = (keys, None) ->
            err = none_matched keys)
        /\ (sshKey = "" -> forall keys e,
            ScanSSHPrivateKeys (world st) = (keys, Some e) ->
            err = "could not scan ~/.ssh for private keys: " +:+ e)).
Proof.
  destruct (Decrypt_RunE_shipped_error cfg input output sshKeyFlag st)
    as (st' & Hrun & Hworld).
  eexists _, st'. split; [exact Hrun|]. split; [exact Hworld|].
  intros Hin Hout [info Hstat] sshKey. unfold shipped_decrypt_error.
  apply String.eqb_neq in Hin, Hout. rewrite Hin, Hout, Hstat. cbn zeta.
  fold sshKey. destruct (String.eqb_spec sshKey "") as [Hkey|Hkey].
  - split; [done|]. split.
    + intros _ keys Hscan. by rewrite Hscan.
    + intros _ keys e Hscan. by rewrite Hscan.
  - by repeat split.
Qed.
End ShippedDecrypt.

(** ** [collectRecipients]: what it fetches and what it logs *)

Section CollectRecipientsEffects.
Context {World : Type} `{Platform World}.

Lemma resolve_github_user cfg ghUserFlag :
  (if String.eqb ghUserFlag "" && negb (String.eqb (GitHubUser cfg) "")
   then GitHubUser cfg else ghUserFlag)
  = github_user cfg ghUserFlag.
Proof.
  unfold github_user.
  destruct (String.eqb_spec ghUserFlag ""); case_decide; try done.
  destruct (String.eqb_spec (GitHubUser cfg) ""); simpl; congruence.
Qed.

(** A list of at most two warnings, none of them the refusal to fetch. *)
Ltac plain_warnings :=
  repeat constructor; simpl; intros url Hmsg; discriminate Hmsg.

Lemma collectRecipients_effects cfg recipients ghUserFlag (st : State World) :
  let ghUser := github_user cfg ghUserFlag in
  let st' := snd (collectRecipients cfg recipients ghUserFlag st) in
  (exists new,
     logged st' = logged st ++ new
     /\ Forall (fun e => log_level e = WarnLevel
                         /\ forall url, log_msg e <> refusing_to_fetch url) new)
  /\ world st'
     = if validUser_MatchString ghUser
       then snd (http_Get (keys_url ghUser) (world st))
       else world st.
Proof.
  intros ghUser st'. subst st'. unfold collectRecipients.
  rewrite resolve_github_user. fold ghUser.
  destruct (String.eqb_spec ghUser "") as [Hempty|Huser]; cbn [negb].
  { rewrite Hempty. simpl. split; [|done]. exists []. by rewrite app_nil_r. }
  destruct (validUser_MatchString ghUser) eqn:Hvalid; cbn [negb].
  2:{ simpl. split; [|done]. eexists [_]. split; [reflexivity|].
      plain_warnings. }
  pose proof (keys_url_accepted ghUser) as Hurl. fold (keys_url ghUser) in Hurl.
  fold (keys_url ghUser). rewrite Hurl. unfold in_world.
  destruct (http_Get (keys_url ghUser) (world st)) as [[resp|err] w1].
  2:{ simpl. split; [|done]. eexists [_]. split; [reflexivity|].
      plain_warnings. }
  destruct (StatusCode resp =? 200).
  2:{ simpl. split; [|done]. eexists [_]. split; [reflexivity|].
      plain_warnings. }
  destruct (Body_ReadAll resp) as [body [e|]], (Body_Close resp) as [ce|];
    simpl; (split; [|done]).
  - eexists [_; _]. rewrite <- app_assoc. split; [reflexivity|]. plain_warnings.
  - eexists [_]. split; [reflexivity|]. plain_warnings.
  - eexists [_]. split; [reflexivity|]. plain_warnings.
  - exists []. by rewrite app_nil_r.
Qed.

(** X7. [collectRecipients] touches the world by at most one GET: none when
    no GitHub user is set or the name does not match the pattern, and
    otherwise one GET of [https://github.com/<user>.keys], with the user of
    the flag or else of the configuration. *)
Theorem collectRecipients_fetches_only_valid_users
    (cfg : Config) (recipients : list string) (ghUserFlag : string)
    (st : State World) :
  let ghUser := github_user cfg ghUserFlag in
  let st' := snd (collectRecipients cfg recipients ghUserFlag st) in
  (user_name_shape ghUser ->
   world st' = snd (http_Get ("https://github.com/" +:+ ghUser +:+ ".keys")
                      (world st)))
  /\ (~ user_name_shape ghUser -> world st' = world st).
Proof.
  intros ghUser st'.
  destruct (collectRecipients_effects cfg recipients ghUserFlag st)
    as [_ Hworld].
  fold ghUser st' in Hworld. split; intros Hshape.
  - apply validUser_shape in Hshape. by rewrite Hshape in Hworld.
  - destruct (validUser_MatchString ghUser) eqn:Hvalid; [|done].
    by apply validUser_shape in Hvalid.
Qed.

(** X9. [collectRecipients] only adds warnings to the log, and never the
    warning "Refusing to fetch keys from non-GitHub URL": the test of the
    address that guards it always passes. *)
Theorem collectRecipients_logs_only_warnings
    (cfg : Config) (recipients : list string) (ghUserFlag : string)
    (st : State World) :
  let st' := snd (collectRecipients cfg recipients ghUserFlag st) in
  exists new,
    logged st' = logged st ++ new
    /\ Forall (fun e => log_level e = WarnLevel
                        /\ forall url, log_msg e <> refusing_to_fetch url) new.
Proof.
  intros st'.
  by destruct (collectRecipients_effects cfg recipients ghUserFlag st)
    as [Hlog _].
Qed.
End CollectRecipientsEffects.

(** ** The [encrypt] command *)

Section EncryptCommandFacts.
Context {World : Type} `{Platform World}.

Lemma github_keys_not_empty body : "" ∉ github_keys body.
Proof.
  unfold github_keys. intros Hin. apply list_elem_of_In, filter_In in Hin.
  by destruct Hin as [_ Hne].
Qed.

(** The recipients [collectRecipients] returns hold an empty string only if
    the default recipients or those of the flag do. *)
Lemma collected_recipients cfg recipients ghUserFlag (st : State World) :
  exists githubKeys st1,
    collectRecipients cfg recipients ghUserFlag st
    = ((DefaultRecipients cfg ++ recipients ++ githubKeys,
        github_user cfg ghUserFlag, None), st1)
    /\ "" ∉ githubKeys.
Proof.
  destruct (collectRecipients_run cfg recipients ghUserFlag st)
    as (githubKeys & st1 & Hrun & Hcases).
  exists githubKeys, st1. split; [exact Hrun|].
  destruct Hcases as [(_ & -> & _)|[(_ & _ & -> & _)|[_ Hfetch]]];
    try apply not_elem_of_nil.
  destruct (fst (http_Get _ (world st))) as [resp|err];
    [|destruct Hfetch as [-> _]; apply not_elem_of_nil].
  destruct (StatusCode resp =? 200);
    [|destruct Hfetch as [-> _]; apply not_elem_of_nil].
  destruct (Body_ReadAll resp) as [body [e|]], (Body_Close resp) as [ce|].
  1-3: destruct Hfetch as [-> _]; apply not_elem_of_nil.
  subst githubKeys. apply github_keys_not_empty.
Qed.

(** The command past its three checks, on what [collectRecipients]
    returned. *)
Lemma Encrypt_RunE_past_checks cfg input output recipients ghUserFlag
    (st st1 : State World) info all ghUser :
  input <> "" -> output <> "" ->
  os_Stat input (world st) = inl info ->
  collectRecipients cfg recipients ghUserFlag st = ((all, ghUser, None), st1) ->
  Encrypt_RunE cfg input output recipients ghUserFlag st
  = if decide (all = []) then (Some "at least one recipient is required", st1)
    else if has_empty (output :: all ++ [input])
    then (Some empty_argument, st1)
    else if negb (HasSuffix output ".txt") && negb (HasSuffix output ".out")
    then (Some (invalid_output output), st1)
    else
      let st2 := log_Info (encrypting_fields input output all ghUser)
                   "Encrypting file" st1 in
      let (err, w3) :=
        exec_Run "age" (expected_ageArgs output input all) (world st2) in
      match err with
      | Some e =>
          (Some ("age encryption failed: " +:+ e),
           log_entry (mkLogEntry ErrorLevel (WithError e) "Encryption failed")
             (mkState w3 (logged st2)))
      | None =>
          (None, log_Info [] "Encryption successful" (mkState w3 (logged st2)))
      end.
Proof.
  intros Hin Hout Hstat Hcollect. unfold Encrypt_RunE.
  apply String.eqb_neq in Hin, Hout. rewrite Hin, Hout, Hstat, Hcollect.
  destruct all as [|r all]; [done|].
  rewrite decide_False by done. cbn [length Nat.eqb].
  rewrite buildAgeArgs_cases.
  destruct (has_empty (output :: (r :: all) ++ [input])); [done|].
  destruct (negb (HasSuffix output ".txt") && negb (HasSuffix output ".out"));
    [done|].
  cbn zeta. unfold runAgeEncrypt, in_world, encrypting_fields.
  cbn [String.eqb Ascii.eqb Bool.eqb negb andb].
  destruct (exec_Run "age" _ _) as [[e|] w3]; done.
Qed.

(** X5. The [encrypt] command returns nil only after [age] ran, once and
    with success, on [-o output -r r1 ... -r rn input], where the
    recipients are those [collectRecipients] returned, at least one and none
    empty, the input names a file that exists and the output ends in [.txt]
    or [.out]. *)
Theorem Encrypt_RunE_success
    (cfg : Config) (input output : string) (recipients : list string)
    (ghUserFlag : string) (st st' : State World) :
  Encrypt_RunE cfg input output recipients ghUserFlag st = (None, st') ->
  exists all ghUser st1,
    collectRecipients cfg recipients ghUserFlag st = ((all, ghUser, None), st1)
    /\ all <> [] /\ ("" ∉ all)
    /\ input <> ""
    /\ (exists info, os_Stat input (world st) = inl info)
    /\ (ends_in output ".txt" \/ ends_in output ".out")
    /\ exec_Run "age"
         (["-o"; output] ++ flat_map (fun r => ["-r"; r]) all ++ [input])
         (world st1)
       = (None, world st')
    /\ (log_msg <$> logged st')
       = (log_msg <$> logged st1) ++ ["Encrypting file"; "Encryption successful"].
Proof.
  intros Hrun.
  destruct (String.eqb_spec input "") as [->|Hin]; [discriminate Hrun|].
  destruct (String.eqb_spec output "") as [->|Hout].
  { unfold Encrypt_RunE in Hrun. apply String.eqb_neq in Hin.
    rewrite Hin in Hrun. discriminate Hrun. }
  destruct (os_Stat input (world st)) as [info|e] eqn:Hstat.
  2:{ unfold Encrypt_RunE in Hrun. apply String.eqb_neq in Hin, Hout.
      rewrite Hin, Hout, Hstat in Hrun. discriminate Hrun. }
  destruct (collected_recipients cfg recipients ghUserFlag st)
    as (githubKeys & st1 & Hcollect & _).
  rewrite (Encrypt_RunE_past_checks _ _ _ _ _ _ _ _ _ _ Hin Hout Hstat Hcollect)
    in Hrun.
  set (all := DefaultRecipients cfg ++ recipients ++ githubKeys) in *.
  case_decide as Hall; [discriminate Hrun|].
  destruct (has_empty (output :: all ++ [input])) eqn:Hempty;
    [discriminate Hrun|].
  destruct (HasSuffix output ".txt") eqn:Htxt,
           (HasSuffix output ".out") eqn:Hsuf;
    cbn [negb andb] in Hrun; try discriminate Hrun.
  all: cbn zeta in Hrun.
  all: destruct (exec_Run "age" _ _) as [[e|] w3] eqn:Hexec;
    [discriminate Hrun|].
  all: injection Hrun as <-.
  all: exists all, (github_user cfg ghUserFlag), st1.
  all: assert (Hnone : "" ∉ all)
    by (intros Hmem; assert ("" ∈ output :: all ++ [input]) as Hbad
          by (rewrite elem_of_cons, elem_of_app; auto);
        apply has_empty_In in Hbad; congruence).
  all: repeat split; try done; eauto.
  all: try (left; by apply HasSuffix_spec).
  all: try (right; by apply HasSuffix_spec).
  all: cbn [logged log_Info log_entry]; by rewrite !fmap_app, <- app_assoc.
Qed.

(** X6. A failed fetch of GitHub keys never fails the [encrypt] command:
    when the input exists, the output ends in [.txt] or [.out] and the
    default recipients and those of the flag are at least one and none
    empty, the command runs [age] on these recipients followed by the keys
    fetched, if any, and its result is that of [age]. *)
Theorem Encrypt_RunE_result_is_that_of_age
    (cfg : Config) (input output : string) (recipients : list string)
    (ghUserFlag : string) (st : State World) :
  input <> "" ->
  (exists info, os_Stat input (world st) = inl info) ->
  (ends_in output ".txt" \/ ends_in output ".out") ->
  DefaultRecipients cfg ++ recipients <> [] ->
  "" ∉ DefaultRecipients cfg ++ recipients ->
  exists githubKeys ghUser st1,
    collectRecipients cfg recipients ghUserFlag st
    = ((DefaultRecipients cfg ++ recipients ++ githubKeys, ghUser, None), st1)
    /\ let ageArgs :=
         ["-o"; output]
         ++ flat_map (fun r => ["-r"; r])
              (DefaultRecipients cfg ++ recipients ++ githubKeys)
         ++ [input] in
       fst (Encrypt_RunE cfg input output recipients ghUserFlag st)
       = match fst (exec_Run "age" ageArgs (world st1)) with
         | None => None
         | Some e => Some ("age encryption failed: " +:+ e)
         end
       /\ world (snd (Encrypt_RunE cfg input output recipients ghUserFlag st))
          = snd (exec_Run "age" ageArgs (world st1)).
Proof.
  intros Hin [info Hstat] Hsuffix Hsome Hnone.
  destruct (collected_recipients cfg recipients ghUserFlag st)
    as (githubKeys & st1 & Hcollect & Hkeys).
  exists githubKeys, (github_user cfg ghUserFlag), st1.
  split; [exact Hcollect|].
  assert (Hout : output <> "").
  { intros ->. destruct Hsuffix as [Hs|Hs];
      by apply not_ends_in_empty in Hs. }
  rewrite (Encrypt_RunE_past_checks _ _ _ _ _ _ _ _ _ _ Hin Hout Hstat Hcollect).
  rewrite decide_False.
  2:{ intros Hnil. apply Hsome. rewrite app_assoc in Hnil.
      by apply app_eq_nil in Hnil as [? _]. }
  assert (has_empty (output :: (DefaultRecipients cfg ++ recipients ++ githubKeys)
                               ++ [input]) = false) as ->.
  { destruct (has_empty _) eqn:Hempty; [|done]. exfalso.
    apply has_empty_In in Hempty.
    rewrite elem_of_cons, !elem_of_app, list_elem_of_singleton in Hempty.
    rewrite elem_of_app in Hnone.
    destruct Hempty as [Heq|[[Hd|[Hr|Hg]]|Heq]]; try done; auto. }
  assert (negb (HasSuffix output ".txt") && negb (HasSuffix output ".out")
          = false) as ->.
  { destruct Hsuffix as [Hs|Hs]; apply HasSuffix_spec in Hs; rewrite Hs;
      [done|apply andb_false_r]. }
  cbn zeta. cbn [world log_Info log_entry]. unfold expected_ageArgs, recipient_args.
  by destruct (exec_Run "age" _ (world st1)) as [[e|] w3].
Qed.

(** X12. The [encrypt] command does not run [age] on arguments it rejects:
    with no recipient at all, with an empty recipient or with an output that
    ends neither in [.txt] nor in [.out], it returns an error and leaves
    the world and the log as [collectRecipients] left them. *)
Theorem Encrypt_RunE_rejects_before_age
    (cfg : Config) (input output : string) (recipients : list string)
    (ghUserFlag : string) (st st1 : State World) (all : list string)
    (ghUser : string) :
  input <> "" -> output <> "" ->
  (exists info, os_Stat input (world st) = inl info) ->
  collectRecipients cfg recipients ghUserFlag st = ((all, ghUser, None), st1) ->
  (all = [] \/ "" ∈ all \/ ~ (ends_in output ".txt" \/ ends_in output ".out")) ->
  exists err,
    Encrypt_RunE cfg input output recipients ghUserFlag st = (Some err, st1)
    /\ (all = [] -> err = "at least one recipient is required").
Proof.
  intros Hin Hout [info Hstat] Hcollect Hbad.
  rewrite (Encrypt_RunE_past_checks _ _ _ _ _ _ _ _ _ _ Hin Hout Hstat Hcollect).
  case_decide as Hall; [eauto|].
  destruct (has_empty (output :: all ++ [input])) eqn:Hempty;
    [eexists; split; [reflexivity|done]|].
  destruct Hbad as [->|[Hmem|Hsuffix]]; [done| |].
  - exfalso. assert ("" ∈ output :: all ++ [input]) as Hin'
      by (rewrite elem_of_cons, elem_of_app; auto).
    apply has_empty_In in Hin'. congruence.
  - destruct (HasSuffix output ".txt") eqn:Htxt.
    { exfalso. apply Hsuffix. left. by apply HasSuffix_spec. }
    destruct (HasSuffix output ".out") eqn:Hsuf.
    { exfalso. apply Hsuffix. right. by apply HasSuffix_spec. }
    eexists; split; [reflexivity|done].
Qed.
(** The command past its checks with recipients that build the arguments of
    [age]: its result is that of [age]. *)
Lemma Encrypt_RunE_runs_age cfg input output recipients ghUserFlag
    (st st1 : State World) all ghUser :
  input <> "" ->
  (exists info, os_Stat input (world st) = inl info) ->
  (ends_in output ".txt" \/ ends_in output ".out") ->
  collectRecipients cfg recipients ghUserFlag st = ((all, ghUser, None), st1) ->
  all <> [] -> "" ∉ all ->
  fst (Encrypt_RunE cfg input output recipients ghUserFlag st)
  = match fst (exec_Run "age"
                 (["-o"; output] ++ flat_map (fun r => ["-r"; r]) all ++ [input])
                 (world st1)) with
    | None => None
    | Some e => Some ("age encryption failed: " +:+ e)
    end.
Proof.
  intros Hin [info Hstat] Hsuffix Hcollect Hsome Hnone.
  assert (Hout : output <> "").
  { intros ->. destruct Hsuffix as [Hs|Hs];
      by apply not_ends_in_empty in Hs. }
  rewrite (Encrypt_RunE_past_checks _ _ _ _ _ _ _ _ _ _ Hin Hout Hstat Hcollect).
  rewrite decide_False by done.
  assert (has_empty (output :: all ++ [input]) = false) as ->.
  { destruct (has_empty _) eqn:Hempty; [|done]. exfalso.
    apply has_empty_In in Hempty.
    rewrite elem_of_cons, elem_of_app, list_elem_of_singleton in Hempty.
    destruct Hempty as [Heq|[Hall|Heq]]; done. }
  assert (negb (HasSuffix output ".txt") && negb (HasSuffix output ".out")
          = false) as ->.
  { destruct Hsuffix as [Hs|Hs]; apply HasSuffix_spec in Hs; rewrite Hs;
      [done|apply andb_false_r]. }
  cbn zeta. cbn [world log_Info log_entry]. unfold expected_ageArgs, recipient_args.
  by destruct (exec_Run "age" _ (world st1)) as [[e|] w3].
Qed.

(** C9, as amended. [collectRecipients] always returns a nil error, and
    the list it returns is the default recipients, then the recipients of
    the flag, then the trimmed non-empty lines of the fetched GitHub keys.
    An invalid user name, a failed fetch, a status other than 200, an
    unreadable body or a body that does not close leaves the GitHub keys
    out and logs a warning.  Without the GitHub keys the [encrypt] command,
    past the checks of its arguments, fails with "at least one recipient is
    required" when there is neither a default recipient nor one of the
    flag; with such recipients, none empty, and an output with one of the
    two suffixes, it runs [age] for them alone and its result is that of
    [age]. *)
Theorem Encrypt_RunE_without_github_keys
    (cfg : Config) (input output : string) (recipients : list string)
    (ghUserFlag : string) (st : State World) :
  let ghUser := github_user cfg ghUserFlag in
  let url := "https://github.com/" +:+ ghUser +:+ ".keys" in
  exists githubKeys st',
    collectRecipients cfg recipients ghUserFlag st
    = ((DefaultRecipients cfg ++ recipients ++ githubKeys, ghUser, None), st')
    /\ (ghUser = "" -> githubKeys = [])
    /\ (ghUser <> "" -> validUser_MatchString ghUser = false ->
        githubKeys = [] /\ warned st st')
    /\ (validUser_MatchString ghUser = true ->
        forall err, fst (http_Get url (world st)) = inr err ->
        githubKeys = [] /\ warned st st')
    /\ (validUser_MatchString ghUser = true ->
        forall resp, fst (http_Get url (world st)) = inl resp ->
        StatusCode resp <> 200 ->
        githubKeys = [] /\ warned st st')
    /\ (validUser_MatchString ghUser = true ->
        forall resp, fst (http_Get url (world st)) = inl resp ->
        StatusCode resp = 200 ->
        snd (Body_ReadAll resp) <> None ->
        githubKeys = [] /\ warned st st')
    /\ (validUser_MatchString ghUser = true ->
        forall resp, fst (http_Get url (world st)) = inl resp ->
        StatusCode resp = 200 ->
        Body_Close resp <> None ->
        githubKeys = [] /\ warned st st')
    /\ (validUser_MatchString ghUser = true ->
        forall resp body, fst (http_Get url (world st)) = inl resp ->
        StatusCode resp = 200 ->
        Body_ReadAll resp = (body, None) -> Body_Close resp = None ->
        githubKeys = github_keys body)
    /\ (githubKeys = [] ->
        input <> "" -> output <> "" ->
        (exists info, os_Stat input (world st) = inl info) ->
        (DefaultRecipients cfg ++ recipients = [] ->
         Encrypt_RunE cfg input output recipients ghUserFlag st
         = (Some "at least one recipient is required", st'))
        /\ (DefaultRecipients cfg ++ recipients <> [] ->
            "" ∉ DefaultRecipients cfg ++ recipients ->
            (ends_in output ".txt" \/ ends_in output ".out") ->
            fst (Encrypt_RunE cfg input output recipients ghUserFlag st)
            = match fst (exec_Run "age"
                           (["-o"; output]
                            ++ flat_map (fun r => ["-r"; r])
                                 (DefaultRecipients cfg ++ recipients)
                            ++ [input])
                           (world st')) with
              | None => None
              | Some e => Some ("age encryption failed: " +:+ e)
              end)).
Proof.
  intros ghUser url.
  destruct (collectRecipients_outcomes cfg recipients ghUserFlag st)
    as (githubKeys & st' & Hrun & Hempty & Hinvalid & Hget & Hstatus & Hread
        & Hclose & Hkeys).
  fold ghUser url in Hrun, Hempty, Hinvalid, Hget, Hstatus, Hread, Hclose, Hkeys.
  exists githubKeys, st'. do 8 (split; [assumption|]).
  intros -> Hin Hout [info Hstat]. rewrite app_nil_r in Hrun. split.
  - intros Hnone. rewrite Hnone in Hrun.
    rewrite (Encrypt_RunE_past_checks _ _ _ _ _ _ _ _ _ _ Hin Hout Hstat Hrun).
    by rewrite decide_True.
  - intros Hsome Hfilled Hsuffix.
    by apply (Encrypt_RunE_runs_age _ _ _ _ _ _ _ _ _ Hin
                (ex_intro _ info Hstat) Hsuffix Hrun).
Qed.
End EncryptCommandFacts.

(** ** [tryAllKeys] as shipped *)

(** X3. [tryAllKeys] as shipped never stops early: it attempts every key of
    the list in order, logs each attempt, returns [false] with [triedKeys]
    grown by the whole list, and leaves the world as it was. *)
Theorem tryAllKeys_as_shipped {World : Type} `{Platform World}
    (keys : list string) (input output : string) (triedKeys : list string)
    (st : State World) :
  exists st',
    tryAllKeys keys input output triedKeys st = ((false, triedKeys ++ keys), st')
    /\ world st' = world st
    /\ attempted_keys (logged st') = attempted_keys (logged st) ++ keys.
Proof.
  destruct (tryAllKeys_with_run tryDecrypt keys input output triedKeys st)
    as (refused & rest & wmid & success & st' & Hrun & Hkeys & Hall & Hlog & Hrest).
  rewrite refused_all_tryDecrypt in Hall. injection Hall as <-.
  destruct rest as [|k rest].
  - destruct Hrest as [-> Hw]. rewrite !app_nil_r in *. subst refused.
    by exists st'.
  - destruct Hrest as [_ Hk]. by rewrite tryDecrypt_refuses in Hk.
Qed.

(** ** [LoadConfig] *)

Section LoadConfigFacts.
Context {World : Type} `{Platform World}.

(** X10. [LoadConfig] returns a configuration or an error, never both and
    never neither; and it leaves the world as it was, except for creating
    the directory [$HOME/.state/a] with mode 0700. *)
Theorem LoadConfig_config_xor_error (cfgFile : string) (w : World) :
  ((exists cfg, fst (LoadConfig cfgFile w) = (Some cfg, None))
   \/ (exists err, fst (LoadConfig cfgFile w) = (None, Some err)))
  /\ (snd (LoadConfig cfgFile w) = w
      \/ snd (LoadConfig cfgFile w) = snd (os_MkdirAll (state_dir w) 448 w)).
Proof.
  unfold LoadConfig, state_dir.
  destruct (os_UserConfigDir w) as [configDir|e]; [|by eauto].
  destruct (filepath_Abs cfgFile w) as [absCfgFile|e]; [|by eauto].
  destruct (negb (HasPrefix absCfgFile _)); [by eauto|].
  destruct (os_Stat cfgFile w) as [info|e]; [|by eauto].
  destruct (negb (Perm (Mode info) =? 384)); [by eauto|].
  destruct (os_ReadFile cfgFile w) as [data|e]; [|by eauto].
  destruct (yaml_Unmarshal data zeroConfig) as [c [e|]]; [by eauto|].
  destruct (String.eqb (LogFilePath c) ""); [|by eauto].
  destruct (os_MkdirAll _ 448 w) as [[e|] w1]; simpl; eauto.
Qed.

(** X11. [LoadConfig] returns a configuration only for a file whose absolute
    path starts with the directory [a] of the user's configuration
    directory, as a string.  The configuration is the one unmarshalled from
    the file, except that an empty log path is replaced by
    [$HOME/.state/a/cli.log], once that directory exists. *)
Theorem LoadConfig_accepts_only
    (cfgFile : string) (w w' : World) (cfg : Config) (err : option error) :
  LoadConfig cfgFile w = ((Some cfg, err), w') ->
  exists configDir absCfgFile data c,
    os_UserConfigDir w = inl configDir
    /\ filepath_Abs cfgFile w = inl absCfgFile
    /\ starts_with absCfgFile (filepath_Join [configDir; "a"])
    /\ os_ReadFile cfgFile w = inl data
    /\ yaml_Unmarshal data zeroConfig = (c, None)
    /\ ((LogFilePath c <> "" /\ cfg = c /\ w' = w)
        \/ (LogFilePath c = ""
            /\ os_MkdirAll (state_dir w) 448 w = (None, w')
            /\ SSHKeyPath cfg = SSHKeyPath c
            /\ GitHubUser cfg = GitHubUser c
            /\ DefaultRecipients cfg = DefaultRecipients c
            /\ CacheTTLMinutes cfg = CacheTTLMinutes c
            /\ LogFilePath cfg = filepath_Join [state_dir w; "cli.log"])).
Proof.
  unfold LoadConfig, state_dir.
  destruct (os_UserConfigDir w) as [configDir|e]; [|done].
  destruct (filepath_Abs cfgFile w) as [absCfgFile|e]; [|done].
  destruct (HasPrefix absCfgFile _) eqn:Hprefix; [|done]. cbn [negb].
  apply HasPrefix_spec in Hprefix.
  destruct (os_Stat cfgFile w) as [info|e]; [|done].
  destruct (negb (Perm (Mode info) =? 384)); [done|].
  destruct (os_ReadFile cfgFile w) as [data|e]; [|done].
  destruct (yaml_Unmarshal data zeroConfig) as [c [e|]] eqn:Hyaml; [done|].
  destruct (String.eqb_spec (LogFilePath c) "") as [Hlog|Hlog].
  - destruct (os_MkdirAll _ 448 w) as [[e|] w1] eqn:Hmkdir; [done|].
    intros [= <- <- <-]. exists configDir, absCfgFile, data, c.
    repeat split; try done. right. by repeat split.
  - intros [= <- <- <-]. exists configDir, absCfgFile, data, c.
    repeat split; try done. by left.
Qed.
End LoadConfigFacts.

(** ** The further properties on the simulated world *)

(** A key of the simulated home, and a key path that is a flag. *)
Lemma tryDecrypt_never_runs_age_witness :
  tryDecrypt id_ed25519 "out.txt" secret Sim.w0
  = (Some "unexpected flag in age arguments: /home/u/.ssh/id_ed25519", Sim.w0)
  /\ tryDecrypt "-i" "out.txt" secret Sim.w0
     = (Some "unexpected flag in age arguments: out.txt", Sim.w0).
Proof.
  split.
  - destruct (tryDecrypt_never_runs_age id_ed25519 "out.txt" secret)
      as (err & Hrun & Herr & _).
    rewrite Hrun, Herr; [reflexivity|].
    rewrite !not_elem_of_cons, elem_of_nil.
    repeat split; try discriminate. tauto.
  - destruct (tryDecrypt_never_runs_age "-i" "out.txt" secret)
      as (err & Hrun & _ & Herr & _).
    rewrite Hrun, Herr; [reflexivity| |].
    + apply list_elem_of_further, list_elem_of_here.
    + rewrite !not_elem_of_cons, elem_of_nil.
      repeat split; try discriminate. tauto.
Defined.

(** No key of the simulated home is accepted, though [id_rsa] decrypts the
    file. *)
Lemma Decrypt_RunE_as_shipped_witness :
  fst (Decrypt_RunE zeroConfig secret "out.txt" "" Sim.st0)
  = Some (none_matched [id_ecdsa; id_ed25519; id_rsa]).
Proof.
  destruct (Decrypt_RunE_as_shipped zeroConfig secret "out.txt" "" Sim.st0)
    as (err & st' & Hrun & _ & Herr).
  rewrite Hrun. cbn [fst]. f_equal.
  destruct Herr as (_ & Hscanned & _).
  - discriminate.
  - discriminate.
  - eexists. vm_compute. reflexivity.
  - apply Hscanned; [reflexivity|]. vm_compute. reflexivity.
Defined.

Lemma buildAgeArgs_error_order_witness :
  buildAgeArgs "" secret ["key.pub"] = ([], Some empty_argument)
  /\ buildAgeArgs "notes.txt" secret ["key.pub"; ""] = ([], Some empty_argument)
  /\ buildAgeArgs "notes.gz" secret ["key.pub"]
     = ([], Some "invalid output file for encryption: notes.gz").
Proof.
  split; [|split].
  - apply (proj1 (buildAgeArgs_error_order "" secret ["key.pub"])).
    apply list_elem_of_here.
  - apply (proj1 (buildAgeArgs_error_order "notes.txt" secret ["key.pub"; ""])).
    cbn [app]. do 2 apply list_elem_of_further. apply list_elem_of_here.
  - apply (proj1 (proj2 (buildAgeArgs_error_order "notes.gz" secret ["key.pub"]))).
    + cbn [app]. rewrite !not_elem_of_cons, elem_of_nil.
      repeat split; try discriminate. tauto.
    + intros [Hend|Hend]; apply HasSuffix_spec in Hend; discriminate Hend.
Defined.

Lemma validUser_MatchString_shape_witness :
  user_name_shape "octocat" /\ ~ user_name_shape "a/../b".
Proof.
  split.
  - apply (proj1 (validUser_MatchString_shape "octocat")). reflexivity.
  - intros Hshape.
    apply (proj1 (validUser_MatchString_shape "a/../b")) in Hshape.
    discriminate Hshape.
Defined.

(** With the default recipient [id_rsa.pub] and a user for whom GitHub
    answers 404. *)
Lemma Encrypt_RunE_success_witness :
  exists st1,
    collectRecipients cfg_one_recipient [] "ghost" Sim.st0
    = ((["/home/u/.ssh/id_rsa.pub"], "ghost", None), st1)
    /\ exec_Run "age" ["-o"; "out.txt"; "-r"; "/home/u/.ssh/id_rsa.pub"; secret]
         (world st1)
       = (None,
          world (snd (Encrypt_RunE cfg_one_recipient secret "out.txt" []
                        "ghost" Sim.st0))).
Proof.
  destruct (Encrypt_RunE_success cfg_one_recipient secret "out.txt" [] "ghost"
              Sim.st0
              (snd (Encrypt_RunE cfg_one_recipient secret "out.txt" [] "ghost"
                      Sim.st0)))
    as (all & ghUser & st1 & Hcollect & _ & _ & _ & _ & _ & Hexec & _).
  - apply injective_projections; [vm_compute; reflexivity | reflexivity].
  - assert (fst (collectRecipients cfg_one_recipient [] "ghost" Sim.st0)
            = (["/home/u/.ssh/id_rsa.pub"], "ghost", None)) as Hresult
      by (vm_compute; reflexivity).
    rewrite Hcollect in Hresult. cbn [fst] in Hresult.
    injection Hresult as -> ->.
    exists st1. split; [exact Hcollect | exact Hexec].
Defined.

Lemma Encrypt_RunE_result_is_that_of_age_witness :
  fst (Encrypt_RunE cfg_one_recipient secret "out.txt" [] "ghost" Sim.st0)
  = None.
Proof.
  destruct (Encrypt_RunE_result_is_that_of_age cfg_one_recipient secret
              "out.txt" [] "ghost" Sim.st0)
    as (githubKeys & ghUser & st1 & Hcollect & Hresult & _).
  - discriminate.
  - eexists. vm_compute. reflexivity.
  - left. by exists "out".
  - discriminate.
  - vm_compute DefaultRecipients. cbn [app].
    rewrite !not_elem_of_cons, elem_of_nil. repeat split; try discriminate. tauto.
  - rewrite Hresult. vm_compute in Hcollect.
    injection Hcollect as <- <- <-. vm_compute. reflexivity.
Defined.

Lemma Encrypt_RunE_rejects_before_age_witness :
  exists err,
    Encrypt_RunE zeroConfig secret "out.txt" [] "" Sim.st0 = (Some err, Sim.st0)
    /\ err = "at least one recipient is required".
Proof.
  destruct (Encrypt_RunE_rejects_before_age zeroConfig secret "out.txt" [] ""
              Sim.st0 Sim.st0 [] "") as (err & Hrun & Herr).
  - discriminate.
  - discriminate.
  - eexists. vm_compute. reflexivity.
  - vm_compute. reflexivity.
  - by left.
  - exists err. split; [exact Hrun | by apply Herr].
Defined.

Lemma collectRecipients_fetches_only_valid_users_witness :
  world (snd (collectRecipients zeroConfig [] "a/../b" Sim.st0)) = Sim.w0
  /\ world (snd (collectRecipients zeroConfig [] "octocat" Sim.st0))
     = snd (http_Get "https://github.com/octocat.keys" Sim.w0).
Proof.
  split.
  - apply (proj2 (collectRecipients_fetches_only_valid_users zeroConfig []
                    "a/../b" Sim.st0)).
    intros Hshape. apply validUser_shape in Hshape. discriminate Hshape.
  - apply (proj1 (collectRecipients_fetches_only_valid_users zeroConfig []
                    "octocat" Sim.st0)).
    apply validUser_shape. reflexivity.
Defined.

(** A configuration file just saved, so of mode 0600, with no log path. *)
Lemma LoadConfig_accepts_only_witness :
  starts_with "/home/u/.config/a/new.yaml" "/home/u/.config/a"
  /\ exists cfg w',
       LoadConfig "/home/u/.config/a/new.yaml" w_saved = ((Some cfg, None), w')
       /\ LogFilePath cfg = "/home/u/.state/a/cli.log".
Proof.
  assert (snd (fst (LoadConfig "/home/u/.config/a/new.yaml" w_saved)) = None)
    as Herr by (vm_compute; reflexivity).
  destruct (LoadConfig "/home/u/.config/a/new.yaml" w_saved)
    as [[[cfg|] err] w'] eqn:Hload; [|vm_compute in Hload; discriminate Hload].
  cbn [fst snd] in Herr. subst err.
  destruct (LoadConfig_accepts_only _ _ _ _ _ Hload)
    as (configDir & absCfgFile & data & c & Hdir & Habs & Hprefix & _ & Hyaml
        & Hcases).
  vm_compute in Hdir, Habs. injection Hdir as <-. injection Habs as <-.
  split; [exact Hprefix|].
  exists cfg, w'. split; [reflexivity|].
  vm_compute in Hyaml. injection Hyaml as <-.
  destruct Hcases as [(Hlog & _)|(_ & _ & _ & _ & _ & _ & ->)]; [done|].
  vm_compute. reflexivity.
Defined.

(** ** The amended statement on [collectRecipients] and [encrypt] *)

(** A user whose keys GitHub serves, and one for whom it answers 404: with
    a default recipient the command encrypts for it alone, with no other
    recipient it fails for lack of one. *)
Lemma Encrypt_RunE_without_github_keys_witness :
  (exists st',
     collectRecipients (mkConfig "" "octocat" ["d.pub"] 0 "") ["r.pub"] ""
       Sim.st0
     = ((["d.pub"; "r.pub"; "ssh-ed25519 AAAAC3Nz one"; "ssh-rsa AAAAB3Nz two"],
         "octocat", None), st'))
  /\ (exists st',
        collectRecipients cfg_one_recipient [] "ghost" Sim.st0
        = ((["/home/u/.ssh/id_rsa.pub"], "ghost", None), st')
        /\ warned Sim.st0 st'
        /\ fst (Encrypt_RunE cfg_one_recipient secret "out.txt" [] "ghost"
                  Sim.st0) = None)
  /\ (exists st',
        Encrypt_RunE zeroConfig secret "out.txt" [] "ghost" Sim.st0
        = (Some "at least one recipient is required", st')).
Proof.
  split; [|split].
  - destruct (Encrypt_RunE_without_github_keys
                (mkConfig "" "octocat" ["d.pub"] 0 "") secret "out.txt"
                ["r.pub"] "" Sim.st0)
      as (githubKeys & st' & Hrun & _ & _ & _ & _ & _ & _ & Hkeys & _).
    exists st'. rewrite Hrun.
    rewrite (Hkeys eq_refl Sim.github_ok
               (fst (Body_ReadAll Sim.github_ok)) eq_refl eq_refl eq_refl eq_refl).
    vm_compute. reflexivity.
  - destruct (Encrypt_RunE_without_github_keys cfg_one_recipient secret
                "out.txt" [] "ghost" Sim.st0)
      as (githubKeys & st' & Hrun & _ & _ & _ & Hstatus & _ & _ & _ & Hencrypt).
    destruct (Hstatus eq_refl (mkResponse 404 ("", None) None) eq_refl)
      as [-> Hwarn]; [discriminate|].
    exists st'. split; [exact Hrun|]. split; [exact Hwarn|].
    destruct Hencrypt as [_ Hage].
    + reflexivity.
    + discriminate.
    + discriminate.
    + eexists. vm_compute. reflexivity.
    + rewrite Hage.
      * vm_compute in Hrun. injection Hrun as <-. vm_compute. reflexivity.
      * discriminate.
      * vm_compute DefaultRecipients. cbn [app].
        rewrite !not_elem_of_cons, elem_of_nil.
        repeat split; try discriminate. tauto.
      * left. by exists "out".
  - destruct (Encrypt_RunE_without_github_keys zeroConfig secret "out.txt" []
                "ghost" Sim.st0)
      as (githubKeys & st' & Hrun & _ & _ & _ & Hstatus & _ & _ & _ & Hencrypt).
    destruct (Hstatus eq_refl (mkResponse 404 ("", None) None) eq_refl)
      as [-> _]; [discriminate|].
    exists st'. apply Hencrypt; try done.
    eexists. vm_compute. reflexivity.
Defined.

(** C9, as stated, fails: for the user [ghost] GitHub answers 404, the keys
    are left out with a warning, and with no other recipient the command
    fails, though [age] was not run. *)
Lemma omitted_keys_fail_encrypt :
  ~ omitted_keys_never_fail_encrypt zeroConfig secret "out.txt" [] "ghost"
      Sim.st0.
Proof.
  intros Hnever.
  destruct (collectRecipients zeroConfig [] "ghost" Sim.st0)
    as [[[all ghUser] err] st1] eqn:Hcollect.
  vm_compute in Hcollect. injection Hcollect as <- <- <- <-.
  destruct (Hnever ltac:(discriminate)
              ltac:(eexists; vm_compute; reflexivity)
              ltac:(left; by exists "out")
              ltac:(apply not_elem_of_nil)
              "ghost" _ ltac:(vm_compute; reflexivity)
              ltac:(eexists _, _; split;
                      [reflexivity
                      |split; [apply list_elem_of_here | reflexivity]])
              "at least one recipient is required"
              ltac:(vm_compute; reflexivity)) as [e He].
  cbv in He. discriminate He.
Qed.
